(** * Leaderboard: offline and online ranking of players

    A shallow embedding of [Leaderboard.cpp] and [PlayerStream.cpp].

    Conventions of the embedding.
    - A [std::vector<Player>] is a [list Player]; an iterator range
      [[first, last)] is the list of the elements it spans.
    - Sizes, indices and counts ([size_t]) are [nat]: every one of them is
      bounded by the size of a vector held in memory, so the increments
      and the [2 * i + 1] of the source never wrap.  The one subtraction of
      the source that could wrap ([VectorPlayerStream::remaining]) is
      written out modulo [2 ^ 64].
    - Levels ([size_t level_]) are [N]; they are only compared and copied.
    - A function that mutates an argument passed by reference returns the
      new value of that argument next to its result.
    - The [elapsed_] field of a [RankingResult] is a wall-clock measurement
      and is left out of the model.
    - [while] loops take a [fuel] argument; a loop that runs out of fuel
      yields [out_of_fuel], and the theorems show that enough fuel always
      exists. *)

From stdpp Require Import gmap strings list sorting.
From Stdlib Require Import ZArith NArith Lia.

Local Open Scope nat_scope.

(** ** Players *)

(** Modelled from the spec: [Player.hpp] is not among the sources.  A player
    is a record with a name and a numeric level, and the comparison
    operators order players by their level. *)
Record Player : Type := mkPlayer { name_ : string; level_ : N }.

#[global] Instance Player_eq_dec : EqDecision Player.
Proof. solve_decision. Defined.

(** [operator<] *)
Definition Player_lt (a b : Player) : bool := (level_ a <? level_ b)%N.
(** [operator>] *)
Definition Player_gt (a b : Player) : bool := (level_ b <? level_ a)%N.

(** The two comparators the source passes to the heap algorithms:
    [std::less<Player>] (the default) and [std::greater<Player>]. *)
Inductive comparator : Type := less | greater.

Definition comp (c : comparator) (a b : Player) : bool :=
  match c with
  | less => Player_lt a b
  | greater => Player_gt a b
  end.

(** ** Outcomes *)

(** What a call can end in besides a value: the exception thrown by
    [VectorPlayerStream::nextPlayer], an operation without defined behaviour
    ([front()] of an empty vector, [back()] of an empty vector, [%] by zero),
    or a loop that did not finish within its fuel. *)
Inductive exn : Type :=
  | runtime_error (what : string)
  | undefined_behaviour (what : string)
  | out_of_fuel.

Definition outcome (A : Type) : Type := exn + A.

Definition ret {A} (a : A) : outcome A := inr a.
Definition raise {A} (e : exn) : outcome A := inl e.
Definition bind {A B} (m : outcome A) (k : A → outcome B) : outcome B :=
  match m with
  | inl e => inl e
  | inr a => k a
  end.

Arguments ret {A} a /.
Arguments raise {A} e /.

Notation "'do' x <- m ; k" := (bind m (fun x => k))
  (at level 10, x pattern, m at level 100, k at level 200).

(** ** Heaps in a vector *)

(** [std::is_heap] with comparator [c]: no element compares before one of
    its children, the children of index [i] being [2i+1] and [2i+2]. *)
Definition is_child (i j : nat) : Prop := j = 2 * i + 1 ∨ j = 2 * i + 2.

Definition is_heap (c : comparator) (l : list Player) : Prop :=
  ∀ i j x y, is_child i j → l !! i = Some x → l !! j = Some y → comp c x y = false.

(** A min-heap by level is a heap for [std::greater]. *)
Definition is_min_heap (l : list Player) : Prop := is_heap greater l.
Definition is_max_heap (l : list Player) : Prop := is_heap less l.

(** [operator<] on the elements at two positions of a vector.  Both
    positions are in range wherever the source evaluates the comparison
    (it is guarded by [idx < heapSize]). *)
Definition lt_at (heap : list Player) (a b : nat) : bool :=
  match heap !! a, heap !! b with
  | Some x, Some y => Player_lt x y
  | _, _ => false
  end.

(** [std::swap] of the elements at two positions. *)
Definition swap (heap : list Player) (a b : nat) : list Player :=
  match heap !! a, heap !! b with
  | Some x, Some y => <[b := x]> (<[a := y]> heap)
  | _, _ => heap
  end.

(** ** [Online::replaceMin] *)

(** The [while (true)] loop of [replaceMin]: [current] is the index
    [std::distance(first, current)]. *)
Fixpoint percolate (fuel : nat) (heap : list Player) (heapSize current : nat)
  : option (list Player) :=
  match fuel with
  | 0 => None
  | S fuel' =>
      let leftChildIdx := 2 * current + 1 in
      let rightChildIdx := 2 * current + 2 in
      let smallest := current in
      let smallest :=
        if (leftChildIdx <? heapSize) && lt_at heap leftChildIdx smallest
        then leftChildIdx else smallest in
      let smallest :=
        if (rightChildIdx <? heapSize) && lt_at heap rightChildIdx smallest
        then rightChildIdx else smallest in
      if smallest =? current then Some heap
      else percolate fuel' (swap heap current smallest) heapSize smallest
  end.

(** [replaceMin(first, last, target)] on the range [heap]; the result is the
    range afterwards ([None]: the loop did not finish within [fuel]).
    [target] is read once and never written. *)
Definition replaceMin (fuel : nat) (heap : list Player) (target : Player)
  : option (list Player) :=
  match heap with
  | [] => Some []
  | _ :: _ =>
      let heap := <[0 := target]> heap in
      let heapSize := length heap in
      percolate fuel heap heapSize 0
  end.

(** ** [VectorPlayerStream] *)

Record VectorPlayerStream : Type :=
  mkStream { players_ : list Player; index_ : nat }.

(** The constructor: a copy of the vector, read from its start. *)
Definition VectorPlayerStream_new (players : list Player) : VectorPlayerStream :=
  {| players_ := players; index_ := 0 |}.

(** [size_t] arithmetic is modulo [2 ^ 64]. *)
Definition size_t_modulus : Z := 2 ^ 64.

(** [VectorPlayerStream::remaining]: [players_.size() - index_], an unsigned
    subtraction. *)
Definition remaining (s : VectorPlayerStream) : Z :=
  ((Z.of_nat (length (players_ s)) - Z.of_nat (index_ s)) `mod` size_t_modulus)%Z.

(** [VectorPlayerStream::nextPlayer]: throws when [index_ >= players_.size()],
    else returns [players_[index_++]]. *)
Definition nextPlayer (s : VectorPlayerStream) : outcome (Player * VectorPlayerStream) :=
  if length (players_ s) <=? index_ s then
    raise (runtime_error "No more players to fetch")
  else
    match players_ s !! index_ s with
    | Some p => ret (p, {| players_ := players_ s; index_ := S (index_ s) |})
    | None => raise (undefined_behaviour "operator[] out of range")
    end.

(** The class invariant of a stream: the read position is within the vector,
    whose size is a [size_t]. *)
Definition wf_stream (s : VectorPlayerStream) : Prop :=
  index_ s ≤ length (players_ s) ∧ (Z.of_nat (length (players_ s)) < size_t_modulus)%Z.

(** The players a stream has yet to produce, in order. *)
Definition pending (s : VectorPlayerStream) : list Player :=
  drop (index_ s) (players_ s).

(** ** The algorithms of [<algorithm>]

    [std::make_heap], [std::pop_heap], [std::sort] and [std::nth_element] are
    the C++ standard library's, not this repository's.  They enter the model
    through the guarantees the C++ standard gives for them, so that what is
    proved of the ranking functions holds for every conforming library. *)

(** [std::is_sorted] for [operator<]: no element is less than an earlier one. *)
Definition is_sorted (l : list Player) : Prop :=
  ∀ i j x y, i < j → l !! i = Some x → l !! j = Some y → Player_lt y x = false.

(** The postcondition of [std::nth_element(first, first + n, last)]: no
    element from position [n] on is less than one before position [n]. *)
Definition is_partitioned (n : nat) (l : list Player) : Prop :=
  ∀ i j x y, i < n → n ≤ j → l !! i = Some x → l !! j = Some y → Player_lt y x = false.

Class StdAlgorithms : Type := {
  (** [std::make_heap(first, last, comp)] *)
  make_heap : comparator → list Player → list Player;
  (** [std::pop_heap(first, last)] *)
  pop_heap : list Player → list Player;
  (** [std::sort(first, last)] *)
  sort : list Player → list Player;
  (** [std::nth_element(first, first + n, last)] *)
  nth_element : nat → list Player → list Player;

  make_heap_Permutation : ∀ c l, make_heap c l ≡ₚ l;
  make_heap_is_heap : ∀ c l, is_heap c (make_heap c l);
  (** On a non-empty max-heap, [pop_heap] moves the first element to the
      last position and leaves a max-heap of the others before it. *)
  pop_heap_spec : ∀ x l,
    is_heap less (x :: l) →
    ∃ h, pop_heap (x :: l) = h ++ [x] ∧ h ≡ₚ l ∧ is_heap less h;
  sort_Permutation : ∀ l, sort l ≡ₚ l;
  sort_is_sorted : ∀ l, is_sorted (sort l);
  nth_element_Permutation : ∀ n l, n ≤ length l → nth_element n l ≡ₚ l;
  nth_element_is_partitioned : ∀ n l, n ≤ length l → is_partitioned n (nth_element n l)
}.

(** ** [RankingResult] *)

(** [cutoffs_] is a [std::unordered_map<size_t, size_t>] from player counts
    to levels. *)
Record RankingResult : Type :=
  mkRankingResult { top_ : list Player; cutoffs_ : gmap nat N }.

(** [v.front()] and [v.back()]: undefined on an empty vector. *)
Definition front (v : list Player) : outcome Player :=
  match v with
  | [] => raise (undefined_behaviour "front() of an empty vector")
  | x :: _ => ret x
  end.

Definition back (v : list Player) : outcome Player :=
  match last v with
  | None => raise (undefined_behaviour "back() of an empty vector")
  | Some x => ret x
  end.

Section Ranking.
Context `{StdAlgorithms}.

(** ** [Offline::heapRank] *)

(** The extraction loop, [n] iterations to go. *)
Fixpoint heapRank_loop (n : nat) (players topPlayers : list Player)
  : outcome (list Player * list Player) :=
  match n with
  | 0 => ret (players, topPlayers)
  | S n' =>
      if decide (players = []) then
        raise (undefined_behaviour "pop_heap on an empty range")
      else
        let players := pop_heap players in
        do b <- back players;
        let topPlayers := topPlayers ++ [b] in
        let players := removelast players in
        heapRank_loop n' players topPlayers
  end.

(** [heapRank(players)]: the result and the vector [players] afterwards. *)
Definition heapRank (players : list Player) : outcome (RankingResult * list Player) :=
  let players := make_heap less players in
  let topCount := length players / 10 in
  do (players, topPlayers) <- heapRank_loop topCount players [];
  let topPlayers := sort topPlayers in
  ret ({| top_ := topPlayers; cutoffs_ := ∅ |}, players).

(** ** [Offline::quickSelectRank] *)

(** [quickSelectRank(players)]: the result and the vector [players]
    afterwards. *)
Definition quickSelectRank (players : list Player) : RankingResult * list Player :=
  let N := length players in
  let k := N - N / 10 in
  let players := nth_element k players in
  let topPlayers := drop k players in
  let topPlayers := sort topPlayers in
  ({| top_ := topPlayers; cutoffs_ := ∅ |}, players).

(** ** [Online::rankIncoming] *)

(** The variables of [rankIncoming] that its loop updates. *)
Record loop_state : Type := mkLoopState {
  ls_stream : VectorPlayerStream;
  ls_topPlayers : list Player;
  ls_cutoffs : gmap nat N;
  ls_playerCount : nat
}.

(** One iteration of the [while] loop. [fuel] bounds the loop inside
    [replaceMin]. *)
Definition rankIncoming_body (fuel : nat) (reporting_interval : nat) (st : loop_state)
  : outcome loop_state :=
  do (currentPlayer, stream) <- nextPlayer (ls_stream st);
  let playerCount := S (ls_playerCount st) in
  do topPlayers <-
    (if length (ls_topPlayers st) <? reporting_interval then
       let topPlayers := ls_topPlayers st ++ [currentPlayer] in
       if length topPlayers =? reporting_interval
       then ret (make_heap greater topPlayers)
       else ret topPlayers
     else
       do f <- front (ls_topPlayers st);
       if Player_gt currentPlayer f then
         match replaceMin fuel (ls_topPlayers st) currentPlayer with
         | Some heap => ret heap
         | None => raise out_of_fuel
         end
       else ret (ls_topPlayers st));
  do cutoffs <-
    (if reporting_interval =? 0 then raise (undefined_behaviour "% by zero")
     else if playerCount `mod` reporting_interval =? 0 then
       do f <- front topPlayers;
       ret (<[playerCount := level_ f]> (ls_cutoffs st))
     else ret (ls_cutoffs st));
  ret {| ls_stream := stream; ls_topPlayers := topPlayers;
         ls_cutoffs := cutoffs; ls_playerCount := playerCount |}.

(** [while (stream.remaining() > 0) { ... }] *)
Fixpoint rankIncoming_loop (fuel : nat) (reporting_interval : nat) (st : loop_state)
  : outcome loop_state :=
  if (0 <? remaining (ls_stream st))%Z then
    match fuel with
    | 0 => raise out_of_fuel
    | S fuel' =>
        do st' <- rankIncoming_body fuel' reporting_interval st;
        rankIncoming_loop fuel' reporting_interval st'
    end
  else ret st.

(** [rankIncoming(stream, reporting_interval)]: the result and the stream
    afterwards. *)
Definition rankIncoming (fuel : nat) (stream : VectorPlayerStream) (reporting_interval : nat)
  : outcome (RankingResult * VectorPlayerStream) :=
  let st0 := {| ls_stream := stream; ls_topPlayers := []; ls_cutoffs := ∅;
                ls_playerCount := 0 |} in
  do st <- rankIncoming_loop fuel reporting_interval st0;
  do cutoffs <-
    (if decide (ls_cutoffs st !! ls_playerCount st = None) then
       do f <- front (ls_topPlayers st);
       ret (<[ls_playerCount st := level_ f]> (ls_cutoffs st))
     else ret (ls_cutoffs st));
  let topPlayers := sort (ls_topPlayers st) in
  ret ({| top_ := topPlayers; cutoffs_ := cutoffs |}, ls_stream st).

End Ranking.

(** * Vocabulary of the specification and of the proofs *)

(** ** The loops, piece by piece *)

(** The position [smallest] that one iteration of the loop settles on. *)
Definition smallest_of (heap : list Player) (heapSize current : nat) : nat :=
  let leftChildIdx := 2 * current + 1 in
  let rightChildIdx := 2 * current + 2 in
  let smallest := current in
  let smallest :=
    if (leftChildIdx <? heapSize) && lt_at heap leftChildIdx smallest
    then leftChildIdx else smallest in
  if (rightChildIdx <? heapSize) && lt_at heap rightChildIdx smallest
  then rightChildIdx else smallest.

(** The invariant of the loop: the vector is a min-heap except that the
    element at [current] may be too large for its position; the parent of
    [current] is no greater than the children of [current]. *)
Definition heap_but (heap : list Player) (current : nat) : Prop :=
  (∀ i j x y, is_child i j → i ≠ current →
     heap !! i = Some x → heap !! j = Some y → (level_ x ≤ level_ y)%N) ∧
  (∀ p j x y, is_child p current → is_child current j →
     heap !! p = Some x → heap !! j = Some y → (level_ x ≤ level_ y)%N).

(** The two halves of the loop body after the fetch: the update of the
    leader buffer and the recording of a cutoff. *)
Definition update_top `{StdAlgorithms} (fuel reporting_interval : nat)
    (topPlayers : list Player) (currentPlayer : Player) : outcome (list Player) :=
  if length topPlayers <? reporting_interval then
    let topPlayers := topPlayers ++ [currentPlayer] in
    if length topPlayers =? reporting_interval
    then ret (make_heap greater topPlayers)
    else ret topPlayers
  else
    do f <- front topPlayers;
    if Player_gt currentPlayer f then
      match replaceMin fuel topPlayers currentPlayer with
      | Some heap => ret heap
      | None => raise out_of_fuel
      end
    else ret topPlayers.

Definition record_cutoff (reporting_interval playerCount : nat)
    (topPlayers : list Player) (cutoffs : gmap nat N) : outcome (gmap nat N) :=
  if reporting_interval =? 0 then raise (undefined_behaviour "% by zero")
  else if playerCount `mod` reporting_interval =? 0 then
    do f <- front topPlayers;
    ret (<[playerCount := level_ f]> cutoffs)
  else ret cutoffs.

(** What [rankIncoming] does after its loop. *)
Definition rankIncoming_finish `{StdAlgorithms} (st : loop_state)
  : outcome (RankingResult * VectorPlayerStream) :=
  do cutoffs <-
    (if decide (ls_cutoffs st !! ls_playerCount st = None) then
       do f <- front (ls_topPlayers st);
       ret (<[ls_playerCount st := level_ f]> (ls_cutoffs st))
     else ret (ls_cutoffs st));
  ret ({| top_ := sort (ls_topPlayers st); cutoffs_ := cutoffs |}, ls_stream st).

(** The cutoffs after the entry for the final count. *)
Definition final_cutoffs (st : loop_state) (f : Player) : gmap nat N :=
  if decide (ls_cutoffs st !! ls_playerCount st = None)
  then <[ls_playerCount st := level_ f]> (ls_cutoffs st)
  else ls_cutoffs st.

(** ** Reading a stream several times *)

(** [n] successive calls of [nextPlayer], with the players they return in
    the order of the calls; the first call that throws ends the sequence. *)
Fixpoint nextPlayers (n : nat) (s : VectorPlayerStream)
  : outcome (list Player * VectorPlayerStream) :=
  match n with
  | 0 => ret ([], s)
  | S n' =>
      do (p, s') <- nextPlayer s;
      do (ps, s'') <- nextPlayers n' s';
      ret (p :: ps, s'')
  end.

(** ** Selections of the highest levels *)

(** Every player of [tp] has a level at least that of every player of
    [rest]. *)
Definition dominates (tp rest : list Player) : Prop :=
  ∀ a b, a ∈ rest → b ∈ tp → (level_ a ≤ level_ b)%N.

(** [tp] is a choice of [k] players of [l] with the highest levels: the
    players of [l] left out of it have levels no higher than those in it. *)
Definition is_top (k : nat) (l tp : list Player) : Prop :=
  length tp = k ∧ ∃ rest, l ≡ₚ tp ++ rest ∧ dominates tp rest.

(** [v] is the lowest level among [k] players of [l] with the highest
    levels. *)
Definition is_cutoff (k : nat) (l : list Player) (v : N) : Prop :=
  ∃ tp, is_top k l tp ∧ (∃ b, b ∈ tp ∧ level_ b = v) ∧ ∀ b, b ∈ tp → (v ≤ level_ b)%N.

(** The invariant of the [while] loop of [rankIncoming], after the players
    [seen] have been read. *)
Record loop_inv (R : nat) (seen : list Player) (st : loop_state) : Prop := {
  inv_count : ls_playerCount st = length seen;
  inv_top : is_top (R `min` length seen) seen (ls_topPlayers st);
  inv_prefix : length seen < R → ls_topPlayers st = seen;
  inv_heap : R ≤ length seen → is_min_heap (ls_topPlayers st);
  inv_keys : ∀ k,
    is_Some (ls_cutoffs st !! k) ↔ 1 ≤ k ≤ length seen ∧ k `mod` R = 0;
  inv_values : ∀ k v,
    ls_cutoffs st !! k = Some v → is_cutoff R (take k seen) v
}.

(** ** The keys of the cutoffs *)

(** The positive multiples of [R] up to [n]. *)
Definition multiples_upto (R n : nat) : gset nat :=
  list_to_set ((λ i, i * R) <$> seq 1 (n / R)).

(** ** Levels *)

(** The levels of the players of a vector, in its order. *)
Definition levels (l : list Player) : list N := level_ <$> l.

(** The levels of the players of a vector, in ascending order. *)
Definition sorted_levels (l : list Player) : list N := merge_sort N.le (levels l).

(** The lowest level among the players of a vector ([None] when empty). *)
Definition min_level (l : list Player) : option N :=
  match l with
  | [] => None
  | p :: l => Some (foldr (λ q m, N.min (level_ q) m) (level_ p) l)
  end.

(** ** Admission to the leader buffer, as the specification words it *)

(** The minimum of the leader buffer once [R] players have been read: the
    [R]-th highest level of the players seen ([None] while fewer than [R]
    have been read). *)
Definition current_minimum (R : nat) (seen : list Player) : option N :=
  if R <=? length seen then sorted_levels seen !! (length seen - R) else None.

(** A player is admitted on arrival while the buffer is not full, and
    afterwards only with a level strictly greater than the current minimum:
    an arrival that ties the current minimum is discarded. *)
Definition admitted_on_arrival (R : nat) (seen : list Player) (p : Player) : bool :=
  match current_minimum R seen with
  | None => true
  | Some m => (m <? level_ p)%N
  end.

(** The players of [todo] admitted on arrival, [seen] having been read
    before them. *)
Fixpoint admitted_after (R : nat) (seen todo : list Player) : list Player :=
  match todo with
  | [] => []
  | p :: todo' =>
      (if admitted_on_arrival R seen p then [p] else [])
        ++ admitted_after R (seen ++ [p]) todo'
  end.

Definition admitted (R : nat) (l : list Player) : list Player :=
  admitted_after R [] l.

(** ** First-seen precedence, as the specification words it *)

(** Ranking with ties in favour of the player seen first: each player
    read is placed behind every player ranked so far whose level is at
    least its own; the top [R] are the first [R] of that ranking. *)
Fixpoint insert_ranked (p : Player) (ranked : list Player) : list Player :=
  match ranked with
  | [] => [p]
  | q :: ranked' =>
      if (level_ q <? level_ p)%N then p :: ranked
      else q :: insert_ranked p ranked'
  end.

Definition rank_first_seen (l : list Player) : list Player :=
  foldl (λ ranked p, insert_ranked p ranked) [] l.

Definition first_seen_top (R : nat) (l : list Player) : list Player :=
  take R (rank_first_seen l).

(** ** Checking a heap by computation *)

Definition heap_pair_ok (c : comparator) (l : list Player) (i j : nat) : bool :=
  match l !! i, l !! j with
  | Some x, Some y => negb (comp c x y)
  | _, _ => true
  end.

Definition is_heap_b (c : comparator) (l : list Player) : bool :=
  forallb (λ i, heap_pair_ok c l i (2 * i + 1) && heap_pair_ok c l i (2 * i + 2))
          (seq 0 (length l)).

(** ** Sorting by level *)

(** Ascending order of levels, and the algorithms of a library that sorts
    wherever the C++ standard asks for less. *)
Definition level_le (a b : Player) : Prop := (level_ a ≤ level_ b)%N.

#[global] Instance level_le_dec : RelDecision level_le.
Proof. intros a b. unfold level_le. apply _. Defined.

#[global] Instance level_le_total : Total level_le.
Proof. intros a b. unfold level_le. lia. Qed.

#[global] Instance level_le_trans : Transitive level_le.
Proof. intros a b c. unfold level_le. lia. Qed.

Definition sort_by_level (l : list Player) : list Player := merge_sort level_le l.

Definition ref_make_heap (c : comparator) (l : list Player) : list Player :=
  match c with
  | less => reverse (sort_by_level l)
  | greater => sort_by_level l
  end.

Definition ref_pop_heap (l : list Player) : list Player :=
  match l with
  | [] => []
  | x :: l => ref_make_heap less l ++ [x]
  end.

(** ** A stream with tied levels *)

(** The stream on which first-seen precedence fails: [x] and [y] are tied
    at level 5, [x] is read before [y]. *)
Definition tie_stream : list Player :=
  [mkPlayer "p1" 1; mkPlayer "p2" 1; mkPlayer "p3" 1;
   mkPlayer "x" 5; mkPlayer "y" 5; mkPlayer "t" 9; mkPlayer "u" 9].

(** [rankIncoming] on [tie_stream] with a reporting interval of 3, from the
    point where the first three players have been made a heap [h]. *)
Definition tie_run `{StdAlgorithms} (h : list Player)
  : outcome (RankingResult * VectorPlayerStream) :=
  do st <-
    (do st' <-
       (do cutoffs <- record_cutoff 3 3 h ∅;
        ret {| ls_stream := {| players_ := tie_stream; index_ := 3 |};
               ls_topPlayers := h; ls_cutoffs := cutoffs; ls_playerCount := 3 |});
     rankIncoming_loop 8 3 st');
  rankIncoming_finish st.

(** * Properties *)

(** ** Comparisons *)

Lemma Player_lt_true a b : Player_lt a b = true ↔ (level_ a < level_ b)%N.
Proof. unfold Player_lt. apply N.ltb_lt. Qed.

Lemma Player_lt_false a b : Player_lt a b = false ↔ (level_ b ≤ level_ a)%N.
Proof. unfold Player_lt. apply N.ltb_ge. Qed.

Lemma Player_gt_true a b : Player_gt a b = true ↔ (level_ b < level_ a)%N.
Proof. unfold Player_gt. apply N.ltb_lt. Qed.

Lemma Player_gt_false a b : Player_gt a b = false ↔ (level_ a ≤ level_ b)%N.
Proof. unfold Player_gt. apply N.ltb_ge. Qed.

(** A min-heap, in terms of levels. *)
Lemma is_min_heap_level l :
  is_min_heap l ↔
  ∀ i j x y, is_child i j → l !! i = Some x → l !! j = Some y → (level_ x ≤ level_ y)%N.
Proof.
  unfold is_min_heap, is_heap; simpl. split; intros Hh i j x y Hc Hi Hj.
  - apply Player_gt_false. eauto.
  - apply Player_gt_false. eauto.
Qed.

(** ** Swapping two elements of a vector *)

Lemma insert_Permutation_delete {A} (l : list A) i x y :
  l !! i = Some x → <[i := y]> l ≡ₚ y :: delete i l.
Proof.
  revert i. induction l as [|a l IH]; intros [|i] Hi; simplify_eq/=; [done|].
  rewrite (IH i Hi). apply Permutation_swap.
Qed.

Lemma insert_Permutation_cons {A} (l : list A) i x y :
  l !! i = Some x → x :: <[i := y]> l ≡ₚ y :: l.
Proof.
  intros Hi. rewrite (insert_Permutation_delete _ _ _ _ Hi).
  rewrite (delete_Permutation l i x Hi) at 2. apply Permutation_swap.
Qed.

Lemma swap_length heap a b : length (swap heap a b) = length heap.
Proof.
  unfold swap. destruct (heap !! a), (heap !! b); rewrite ?length_insert; done.
Qed.

Lemma swap_Permutation heap a b : swap heap a b ≡ₚ heap.
Proof.
  unfold swap.
  destruct (heap !! a) as [x|] eqn:Ha; [|done].
  destruct (heap !! b) as [y|] eqn:Hb; [|done].
  destruct (decide (a = b)) as [->|Hab].
  - simplify_eq. rewrite list_insert_insert_eq. by rewrite list_insert_id.
  - assert (<[a:=y]> heap !! b = Some y) as Hb' by by rewrite list_lookup_insert_ne.
    apply (Permutation_cons_inv (a := y)).
    rewrite (insert_Permutation_cons _ _ _ _ Hb').
    apply (insert_Permutation_cons _ _ _ _ Ha).
Qed.

Lemma swap_lookup heap a b x y k :
  heap !! a = Some x → heap !! b = Some y → a ≠ b →
  swap heap a b !! k =
    if decide (k = a) then Some y else if decide (k = b) then Some x else heap !! k.
Proof.
  intros Ha Hb Hab. unfold swap. rewrite Ha, Hb.
  pose proof (lookup_lt_Some _ _ _ Ha). pose proof (lookup_lt_Some _ _ _ Hb).
  destruct (decide (k = b)) as [->|Hkb].
  - rewrite decide_False by done.
    rewrite list_lookup_insert_eq; [done|]. by rewrite length_insert.
  - rewrite list_lookup_insert_ne by done.
    destruct (decide (k = a)) as [->|Hka].
    + by rewrite list_lookup_insert_eq.
    + by rewrite list_lookup_insert_ne.
Qed.

(** ** The percolation loop of [replaceMin] *)

Lemma percolate_S fuel heap heapSize current :
  percolate (S fuel) heap heapSize current =
    let smallest := smallest_of heap heapSize current in
    if smallest =? current then Some heap
    else percolate fuel (swap heap current smallest) heapSize smallest.
Proof. reflexivity. Qed.

(** [smallest] is [current] or one of its children within the heap. *)
Lemma smallest_of_range heap heapSize current :
  let s := smallest_of heap heapSize current in
  s = current ∨ (is_child current s ∧ s < heapSize).
Proof.
  unfold smallest_of, is_child; simpl.
  repeat match goal with
  | |- context [if ?b && ?c then _ else _] =>
      destruct b eqn:?; simpl; [destruct c eqn:?|]
  end;
  repeat match goal with H : (_ <? _) = true |- _ => apply Nat.ltb_lt in H end;
  auto; right; split; auto; lia.
Qed.

Lemma lt_at_true heap a b :
  lt_at heap a b = true ↔
  ∃ x y, heap !! a = Some x ∧ heap !! b = Some y ∧ (level_ x < level_ y)%N.
Proof.
  unfold lt_at. split.
  - destruct (heap !! a) as [x|], (heap !! b) as [y|]; try done.
    intros Hlt%Player_lt_true. eauto.
  - intros (x & y & -> & -> & Hlt). by apply Player_lt_true.
Qed.

Lemma lt_at_false heap a b x y :
  heap !! a = Some x → heap !! b = Some y →
  lt_at heap a b = false → (level_ y ≤ level_ x)%N.
Proof. unfold lt_at. intros -> ->. apply Player_lt_false. Qed.

(** What the choice of [smallest] guarantees: either [current] is no greater
    than its children, or [smallest] is a child strictly below [current] and
    no greater than the other child. *)
Lemma smallest_of_spec heap current x :
  heap !! current = Some x →
  let s := smallest_of heap (length heap) current in
  (s = current ∧
     ∀ j y, is_child current j → heap !! j = Some y → (level_ x ≤ level_ y)%N) ∨
  (is_child current s ∧ s ≠ current ∧
     ∃ y, heap !! s = Some y ∧ (level_ y < level_ x)%N ∧
       ∀ j z, is_child current j → heap !! j = Some z → (level_ y ≤ level_ z)%N).
Proof.
  intros Hc. unfold smallest_of; simpl.
  set (lc := current + (current + 0) + 1). set (rc := current + (current + 0) + 2).
  assert (∀ j, is_child current j ↔ j = lc ∨ j = rc) as Hch
    by (intros j; unfold is_child, lc, rc; lia).
  assert (lc ≠ current ∧ rc ≠ current) as [Hlc Hrc] by (unfold lc, rc; lia).
  clearbody lc rc.
  assert (∀ k, (k <? length heap) && lt_at heap k current = lt_at heap k current) as Hguard.
  { intros k. destruct (lt_at heap k current) eqn:Hlt; [|by rewrite andb_false_r].
    apply lt_at_true in Hlt as (? & ? & Hk%lookup_lt_Some & _).
    apply Nat.ltb_lt in Hk. by rewrite Hk. }
  assert (∀ k, (k <? length heap) && lt_at heap k lc = lt_at heap k lc) as Hguard'.
  { intros k. destruct (lt_at heap k lc) eqn:Hlt; [|by rewrite andb_false_r].
    apply lt_at_true in Hlt as (? & ? & Hk%lookup_lt_Some & _).
    apply Nat.ltb_lt in Hk. by rewrite Hk. }
  rewrite Hguard.
  destruct (lt_at heap lc current) eqn:Hl.
  - apply lt_at_true in Hl as (yl & x' & Hyl & Hx' & Hlt). simplify_eq.
    rewrite Hguard'.
    destruct (lt_at heap rc lc) eqn:Hr.
    + apply lt_at_true in Hr as (yr & yl' & Hyr & Hyl' & Hlt'). simplify_eq.
      right. split; [apply Hch; auto|]. split; [done|].
      exists yr. split; [done|]. split; [lia|].
      intros j z [->| ->]%Hch Hj; simplify_eq; lia.
    + right. split; [apply Hch; auto|]. split; [done|].
      exists yl. split; [done|]. split; [done|].
      intros j z [->| ->]%Hch Hj; simplify_eq; [lia|].
      apply (lt_at_false _ _ _ _ _ Hj Hyl Hr).
  - rewrite Hguard.
    destruct (lt_at heap rc current) eqn:Hr.
    + apply lt_at_true in Hr as (yr & x' & Hyr & Hx' & Hlt). simplify_eq.
      right. split; [apply Hch; auto|]. split; [done|].
      exists yr. split; [done|]. split; [done|].
      intros j z [->| ->]%Hch Hj; simplify_eq; [|lia].
      pose proof (lt_at_false _ _ _ _ _ Hj Hc Hl). lia.
    + left. split; [done|].
      intros j y [->| ->]%Hch Hj.
      * apply (lt_at_false _ _ _ _ _ Hj Hc Hl).
      * apply (lt_at_false _ _ _ _ _ Hj Hc Hr).
Qed.

(** The loop finishes within [heapSize - current] iterations (and one more
    to leave it). *)
Lemma percolate_terminates fuel heap heapSize current :
  heapSize - current ≤ fuel → 1 ≤ fuel →
  ∃ heap', percolate fuel heap heapSize current = Some heap'.
Proof.
  revert heap current. induction fuel as [|fuel IH]; intros heap current Hf H1; [lia|].
  rewrite percolate_S; simpl.
  destruct (smallest_of_range heap heapSize current) as [->|[Hc Hlt]].
  - rewrite Nat.eqb_refl. eauto.
  - destruct (Nat.eqb_spec (smallest_of heap heapSize current) current); [eauto|].
    apply IH; unfold is_child in Hc; lia.
Qed.

(** The loop finishes within the height of the heap below [current]: each
    iteration moves one level down. *)
Lemma percolate_terminates_log fuel heap heapSize current :
  Nat.log2 heapSize < fuel + Nat.log2 (current + 1) → 1 ≤ fuel →
  ∃ heap', percolate fuel heap heapSize current = Some heap'.
Proof.
  revert heap current. induction fuel as [|fuel IH]; intros heap current Hf H1; [lia|].
  rewrite percolate_S; simpl.
  destruct (smallest_of_range heap heapSize current) as [->|[Hc Hlt]].
  - rewrite Nat.eqb_refl. eauto.
  - destruct (Nat.eqb_spec (smallest_of heap heapSize current) current); [eauto|].
    set (s := smallest_of heap heapSize current) in *. clearbody s.
    assert (Nat.log2 (s + 1) = S (Nat.log2 (current + 1))) as Hlog.
    { destruct Hc as [-> | ->].
      - replace (2 * current + 1 + 1) with (2 * (current + 1)) by lia.
        apply Nat.log2_double. lia.
      - replace (2 * current + 2 + 1) with (2 * (current + 1) + 1) by lia.
        apply Nat.log2_succ_double. lia. }
    pose proof (Nat.log2_le_mono (s + 1) heapSize ltac:(lia)).
    apply IH; lia.
Qed.

(** More fuel does not change the result. *)
Lemma percolate_fuel_mono fuel fuel' heap heapSize current heap' :
  percolate fuel heap heapSize current = Some heap' → fuel ≤ fuel' →
  percolate fuel' heap heapSize current = Some heap'.
Proof.
  revert fuel' heap current.
  induction fuel as [|fuel IH]; intros fuel' heap current Hp Hle; [done|].
  destruct fuel' as [|fuel']; [lia|].
  rewrite percolate_S in *; simpl in *.
  destruct (_ =? _); [done|]. apply IH; [done|lia].
Qed.

Lemma percolate_length fuel heap heapSize current heap' :
  percolate fuel heap heapSize current = Some heap' → length heap' = length heap.
Proof.
  revert heap current. induction fuel as [|fuel IH]; intros heap current Hp; [done|].
  rewrite percolate_S in Hp; simpl in Hp.
  destruct (_ =? _); [by simplify_eq|].
  rewrite (IH _ _ Hp). apply swap_length.
Qed.

Lemma percolate_Permutation fuel heap heapSize current heap' :
  percolate fuel heap heapSize current = Some heap' → heap' ≡ₚ heap.
Proof.
  revert heap current. induction fuel as [|fuel IH]; intros heap current Hp; [done|].
  rewrite percolate_S in Hp; simpl in Hp.
  destruct (_ =? _); [by simplify_eq|].
  rewrite (IH _ _ Hp). apply swap_Permutation.
Qed.

Lemma heap_but_swap heap current s x y :
  heap_but heap current →
  heap !! current = Some x → heap !! s = Some y →
  is_child current s → (level_ y < level_ x)%N →
  (∀ j z, is_child current j → heap !! j = Some z → (level_ y ≤ level_ z)%N) →
  heap_but (swap heap current s) s.
Proof.
  intros [Hpairs Hgrand] Hc Hs Hcs Hlt Hmin.
  assert (current ≠ s) as Hne by (unfold is_child in Hcs; lia).
  split.
  - intros i j a b Hij His Hi Hj.
    rewrite (swap_lookup _ _ _ _ _ i Hc Hs Hne) in Hi.
    rewrite (swap_lookup _ _ _ _ _ j Hc Hs Hne) in Hj.
    destruct (decide (i = current)) as [->|Hic].
    + simplify_eq. rewrite decide_False in Hj by (unfold is_child in Hij; lia).
      case_decide; simplify_eq; [lia|]. eauto.
    + rewrite decide_False in Hi by done.
      destruct (decide (j = current)) as [->|Hjc]; simplify_eq.
      * eapply Hgrand; eauto.
      * rewrite decide_False in Hj by (unfold is_child in *; lia). eauto.
  - intros p j a b Hps Hsj Hp Hj.
    rewrite (swap_lookup _ _ _ _ _ p Hc Hs Hne) in Hp.
    rewrite (swap_lookup _ _ _ _ _ j Hc Hs Hne) in Hj.
    assert (p = current) as -> by (unfold is_child in *; lia).
    rewrite decide_True in Hp by done.
    rewrite !decide_False in Hj by (unfold is_child in *; lia).
    simplify_eq. eapply (Hpairs s j); eauto.
Qed.

Lemma percolate_is_min_heap fuel heap current heap' :
  current < length heap → heap_but heap current →
  percolate fuel heap (length heap) current = Some heap' →
  is_min_heap heap'.
Proof.
  revert heap current. induction fuel as [|fuel IH]; intros heap current Hlt Hb Hp; [done|].
  rewrite percolate_S in Hp; simpl in Hp.
  destruct (lookup_lt_is_Some_2 _ _ Hlt) as [x Hx].
  pose proof (smallest_of_spec heap current x Hx) as Hspec; simpl in Hspec.
  set (s := smallest_of heap (length heap) current) in *. clearbody s.
  destruct Hspec as [[Hs Hmin]|(Hcs & Hne & y & Hy & Hyx & Hmin)].
  - rewrite Hs, Nat.eqb_refl in Hp. simplify_eq.
    apply is_min_heap_level. intros i j a b Hij Hi Hj.
    destruct (decide (i = current)) as [->|Hic].
    + simplify_eq. eauto.
    + destruct Hb as [Hpairs _]. eauto.
  - apply Nat.eqb_neq in Hne. rewrite Hne in Hp.
    rewrite <-(swap_length heap current s) in Hp.
    eapply IH; [| |exact Hp].
    + rewrite swap_length. eapply lookup_lt_Some; eauto.
    + eapply heap_but_swap; eauto.
Qed.

Lemma is_min_heap_heap_but_root x heap target :
  is_min_heap (x :: heap) → heap_but (target :: heap) 0.
Proof.
  intros Hh. pose proof (proj1 (is_min_heap_level _) Hh) as Hl. clear Hh. split.
  - intros i j a b Hij Hi Hia Hjb.
    destruct i as [|i]; [done|]. destruct j as [|j]; [unfold is_child in Hij; lia|].
    apply (Hl (S i) (S j)); auto.
  - intros p j a b Hp. unfold is_child in Hp. lia.
Qed.

(** [replaceMin] is total, and on a min-heap it leaves a min-heap holding the
    target in place of the old root. *)
Lemma replaceMin_total heap target :
  ∃ heap', length heap' = length heap ∧
    ∀ fuel, length heap ≤ fuel → replaceMin fuel heap target = Some heap'.
Proof.
  destruct heap as [|x heap]; [by exists []|].
  destruct (percolate_terminates (length (x :: heap)) (target :: heap)
              (length (x :: heap)) 0) as [heap' Hp]; [simpl; lia..|].
  exists heap'. split.
  - by rewrite (percolate_length _ _ _ _ _ Hp).
  - intros fuel Hf. simpl. eapply percolate_fuel_mono; eauto.
Qed.

Lemma replaceMin_spec fuel x heap target heap' :
  is_min_heap (x :: heap) →
  replaceMin fuel (x :: heap) target = Some heap' →
  is_min_heap heap' ∧ heap' ≡ₚ target :: heap.
Proof.
  intros Hh Hp. simpl in Hp. split.
  - eapply (percolate_is_min_heap fuel (target :: heap) 0); [simpl; lia| |exact Hp].
    eapply is_min_heap_heap_but_root; eauto.
  - eapply percolate_Permutation; eauto.
Qed.

(** C7. The percolate-down loop of [replaceMin] terminates on every range
    and for every replacement value: a fuel of the size of the range is
    enough, more fuel gives the same range back, and the range keeps its
    size; [replaceMin] is a total function. *)
Theorem replaceMin_terminates (heap : list Player) (target : Player) :
  ∃ heap', length heap' = length heap ∧
    ∀ fuel, length heap ≤ fuel → replaceMin fuel heap target = Some heap'.
Proof. apply replaceMin_total. Qed.

(** C5. On a non-empty range that is a min-heap, [replaceMin] returns (given
    fuel of the size of the range) a range that is again a min-heap and that
    holds, as a multiset, the original contents with the old root removed
    and the replacement value added. *)
Theorem replaceMin_min_heap (root : Player) (heap : list Player) (target : Player) :
  is_min_heap (root :: heap) →
  ∃ heap',
    (∀ fuel, length (root :: heap) ≤ fuel →
       replaceMin fuel (root :: heap) target = Some heap') ∧
    is_min_heap heap' ∧ heap' ≡ₚ target :: heap.
Proof.
  intros Hh.
  destruct (replaceMin_total (root :: heap) target) as (heap' & _ & Hfuel).
  exists heap'. split; [done|].
  eapply replaceMin_spec; eauto.
Qed.

(** ** The stream *)

Lemma wf_stream_new players :
  (Z.of_nat (length players) < size_t_modulus)%Z →
  wf_stream (VectorPlayerStream_new players).
Proof. intros Hsz. split; simpl; [lia|done]. Qed.

(** On a well-formed stream the subtraction does not wrap: [remaining] is
    the number of players yet to be produced. *)
Lemma remaining_wf s :
  wf_stream s → remaining s = Z.of_nat (length (pending s)).
Proof.
  intros [Hidx Hsz]. unfold remaining, pending. rewrite length_drop.
  unfold size_t_modulus in *. rewrite Z.mod_small by lia. lia.
Qed.

Lemma remaining_pos_pending s :
  wf_stream s → (0 <? remaining s)%Z = true ↔ pending s ≠ [].
Proof.
  intros Hwf. rewrite (remaining_wf s Hwf), Z.ltb_lt.
  destruct (pending s); simpl; split; intros; try done; lia.
Qed.

Lemma nextPlayer_throws s what :
  nextPlayer s = inl (runtime_error what) → length (players_ s) ≤ index_ s.
Proof.
  unfold nextPlayer. destruct (Nat.leb_spec (length (players_ s)) (index_ s)); [done|].
  destruct (players_ s !! index_ s); done.
Qed.

Lemma nextPlayer_pending s p todo :
  wf_stream s → pending s = p :: todo →
  ∃ s', nextPlayer s = inr (p, s') ∧ wf_stream s' ∧ pending s' = todo
        ∧ players_ s' = players_ s.
Proof.
  intros [Hidx Hsz] Hp. unfold pending in Hp.
  assert (players_ s !! index_ s = Some p) as Hlook.
  { rewrite <-(Nat.add_0_r (index_ s)), <-lookup_drop. by rewrite Hp. }
  pose proof (lookup_lt_Some _ _ _ Hlook) as Hlt.
  exists {| players_ := players_ s; index_ := S (index_ s) |}.
  unfold nextPlayer. rewrite Hlook.
  destruct (Nat.leb_spec (length (players_ s)) (index_ s)); [lia|].
  split; [done|]. split; [split; simpl; [lia|done]|]. split; [|done].
  unfold pending; simpl. rewrite (drop_S _ _ _ Hlook) in Hp. by simplify_eq.
Qed.

Lemma nextPlayer_exhausted s :
  wf_stream s →
  (∃ what, nextPlayer s = inl (runtime_error what)) ↔ remaining s = 0%Z.
Proof.
  intros Hwf. rewrite (remaining_wf s Hwf). split.
  - intros [what Hthrow%nextPlayer_throws].
    unfold pending. rewrite drop_ge by done. done.
  - intros Hlen. exists "No more players to fetch"%string.
    unfold pending in Hlen. rewrite length_drop in Hlen.
    unfold nextPlayer.
    destruct (Nat.leb_spec (length (players_ s)) (index_ s)); [done|lia].
Qed.

(** ** The loop of [rankIncoming] *)

Section RankIncoming.
Context `{StdAlgorithms}.

Lemma rankIncoming_body_unfold fuel R st :
  rankIncoming_body fuel R st =
    do (currentPlayer, stream) <- nextPlayer (ls_stream st);
    do topPlayers <- update_top fuel R (ls_topPlayers st) currentPlayer;
    do cutoffs <-
      record_cutoff R (S (ls_playerCount st)) topPlayers (ls_cutoffs st);
    ret {| ls_stream := stream; ls_topPlayers := topPlayers;
           ls_cutoffs := cutoffs; ls_playerCount := S (ls_playerCount st) |}.
Proof. reflexivity. Qed.

Lemma rankIncoming_unfold fuel s R :
  rankIncoming fuel s R =
    do st <- rankIncoming_loop fuel R
               {| ls_stream := s; ls_topPlayers := []; ls_cutoffs := ∅;
                  ls_playerCount := 0 |};
    rankIncoming_finish st.
Proof. reflexivity. Qed.

Lemma update_top_no_throw fuel R tp p what :
  update_top fuel R tp p ≠ inl (runtime_error what).
Proof.
  unfold update_top. repeat case_match; try done.
  all: destruct tp; simpl in *; simplify_eq; repeat case_match; done.
Qed.

Lemma record_cutoff_no_throw R count tp cutoffs what :
  record_cutoff R count tp cutoffs ≠ inl (runtime_error what).
Proof.
  unfold record_cutoff. repeat case_match; try done.
  destruct tp; done.
Qed.

(** The loop body fetches only from a stream that has players left, so the
    exception of [nextPlayer] does not come out of it. *)
Lemma rankIncoming_body_no_throw fuel R st what :
  wf_stream (ls_stream st) → (0 <? remaining (ls_stream st))%Z = true →
  rankIncoming_body fuel R st ≠ inl (runtime_error what) ∧
  ∀ st', rankIncoming_body fuel R st = inr st' → wf_stream (ls_stream st').
Proof.
  intros Hwf Hrem. apply remaining_pos_pending in Hrem; [|done].
  destruct (pending (ls_stream st)) as [|p todo] eqn:Hp; [done|].
  destruct (nextPlayer_pending _ _ _ Hwf Hp) as (s' & Hnext & Hwf' & _).
  rewrite rankIncoming_body_unfold, Hnext; simpl.
  destruct (update_top fuel R (ls_topPlayers st) p) as [e|tp] eqn:Hup; simpl.
  { split; [|done]. intros ?; simplify_eq. by eapply update_top_no_throw. }
  destruct (record_cutoff R (S (ls_playerCount st)) tp (ls_cutoffs st))
    as [e|cut] eqn:Hrec; simpl.
  { split; [|done]. intros ?; simplify_eq. by eapply record_cutoff_no_throw. }
  split; [done|]. intros st' ?; simplify_eq/=. exact Hwf'.
Qed.

Lemma rankIncoming_loop_no_throw fuel R st what :
  wf_stream (ls_stream st) →
  rankIncoming_loop fuel R st ≠ inl (runtime_error what).
Proof.
  revert st. induction fuel as [|fuel IH]; intros st Hwf; simpl.
  - by destruct (0 <? remaining (ls_stream st))%Z.
  - destruct (0 <? remaining (ls_stream st))%Z eqn:Hrem; [|done].
    destruct (rankIncoming_body_no_throw fuel R st what Hwf Hrem) as [Hbody Hwf'].
    destruct (rankIncoming_body fuel R st) as [e|st'] eqn:Hb; simpl; [done|].
    apply IH, Hwf'. done.
Qed.

Lemma rankIncoming_no_throw fuel s R what :
  wf_stream s → rankIncoming fuel s R ≠ inl (runtime_error what).
Proof.
  intros Hwf. unfold rankIncoming.
  set (st0 := {| ls_stream := s; ls_topPlayers := []; ls_cutoffs := ∅;
                 ls_playerCount := 0 |}).
  pose proof (rankIncoming_loop_no_throw fuel R st0 what Hwf) as Hloop.
  destruct (rankIncoming_loop fuel R st0) as [e|st]; simpl;
    [intros [= ->]; by apply Hloop|].
  case_decide; simpl; [|done].
  destruct (ls_topPlayers st); done.
Qed.

End RankIncoming.

(** ** Selections of the highest levels *)

Lemma is_top_Permutation k l tp tp' :
  tp' ≡ₚ tp → is_top k l tp → is_top k l tp'.
Proof.
  intros Hp [Hlen (rest & Hl & Hdom)]. split; [by rewrite Hp|].
  exists rest. split; [by rewrite Hp|].
  intros a b Ha Hb. rewrite Hp in Hb. by apply Hdom.
Qed.

(** Nothing in a heap compares before its root. *)
Lemma comp_false_trans c x y z :
  comp c x y = false → comp c y z = false → comp c x z = false.
Proof.
  destruct c; simpl; rewrite ?Player_lt_false, ?Player_gt_false; lia.
Qed.

Lemma comp_irrefl c x : comp c x x = false.
Proof. destruct c; simpl; rewrite ?Player_lt_false, ?Player_gt_false; lia. Qed.

Lemma heap_root c r heap b :
  is_heap c (r :: heap) → b ∈ r :: heap → comp c r b = false.
Proof.
  intros Hh [i Hi]%list_elem_of_lookup. revert b Hi.
  induction (lt_wf i) as [i _ IH]. intros b Hi.
  destruct i as [|i]; [simplify_eq/=; apply comp_irrefl|].
  assert (is_child (i / 2) (S i)) as Hc.
  { unfold is_child. pose proof (Nat.div_mod_eq i 2).
    pose proof (Nat.mod_upper_bound i 2). lia. }
  assert (i / 2 < S i) as Hlt by (unfold is_child in Hc; lia).
  pose proof (lookup_lt_Some _ _ _ Hi) as Hlen.
  destruct (lookup_lt_is_Some_2 (r :: heap) (i / 2)) as [x Hx]; [lia|].
  eapply comp_false_trans; [by apply (IH _ Hlt)|by eapply Hh].
Qed.

(** The root of a min-heap has the lowest level of the heap, the root of a
    max-heap the highest. *)
Lemma min_heap_root r heap b :
  is_min_heap (r :: heap) → b ∈ r :: heap → (level_ r ≤ level_ b)%N.
Proof. intros Hh Hb. apply Player_gt_false. by apply (heap_root greater r heap). Qed.

Lemma max_heap_root r heap b :
  is_max_heap (r :: heap) → b ∈ r :: heap → (level_ b ≤ level_ r)%N.
Proof. intros Hh Hb. apply Player_lt_false. by apply (heap_root less r heap). Qed.

Section RankIncomingInvariant.
Context `{StdAlgorithms}.
Variable R : nat.
Hypothesis R_pos : 1 ≤ R.

(** The update of the leader buffer keeps it a choice of the
    [min R (players seen)] highest levels seen: the players seen in their
    order while fewer than [R], a min-heap from then on. *)
Lemma update_top_spec fuel seen tp p :
  R ≤ fuel →
  is_top (R `min` length seen) seen tp →
  (length seen < R → tp = seen) →
  (R ≤ length seen → is_min_heap tp) →
  ∃ tp', update_top fuel R tp p = inr tp' ∧
    is_top (R `min` length (seen ++ [p])) (seen ++ [p]) tp' ∧
    (length (seen ++ [p]) < R → tp' = seen ++ [p]) ∧
    (R ≤ length (seen ++ [p]) → is_min_heap tp').
Proof.
  intros Hfuel [Hlen (rest & Hperm & Hdom)] Hpre Hheap.
  assert (length (seen ++ [p]) = S (length seen)) as ->
    by (rewrite length_app; simpl; lia).
  unfold update_top.
  destruct (Nat.ltb_spec (length tp) R) as [Hlt|Hge].
  - assert (length seen < R) as Hseen by lia.
    rewrite (Hpre Hseen) in *. rewrite length_app; simpl.
    destruct (Nat.eqb_spec (length seen + 1) R) as [Heq|Hne].
    + eexists. split; [done|]. split; [|split; [lia|]].
      * split; [rewrite make_heap_Permutation, length_app; simpl; lia|].
        exists []. rewrite app_nil_r. split; [by rewrite make_heap_Permutation|].
        intros a b Ha. by apply elem_of_nil in Ha.
      * intros _. apply make_heap_is_heap.
    + eexists. split; [done|]. split; [|split; [done|lia]].
      split; [rewrite length_app; simpl; lia|].
      exists []. rewrite app_nil_r. split; [done|].
      intros a b Ha. by apply elem_of_nil in Ha.
  - assert (R ≤ length seen ∧ length tp = R) as [Hseen HlenR] by lia.
    specialize (Hheap Hseen).
    destruct tp as [|r heap]; [simpl in *; lia|]. cbn [front bind ret].
    destruct (Player_gt p r) eqn:Hgt.
    + apply Player_gt_true in Hgt.
      destruct (replaceMin_total (r :: heap) p) as (heap' & Hlen' & Hrep).
      rewrite Hrep by lia.
      destruct (replaceMin_spec fuel r heap p heap' Hheap) as [Hheap' Hperm'];
        [apply Hrep; lia|].
      eexists. split; [done|]. split; [|split; [lia|done]].
      split; [lia|]. exists (r :: rest). split.
      * rewrite Hperm, Hperm'. simpl.
        rewrite <-Permutation_cons_append, <-Permutation_middle. apply Permutation_swap.
      * intros a b Ha Hb. rewrite Hperm' in Hb.
        apply elem_of_cons in Ha as [->|Ha]; apply elem_of_cons in Hb as [->|Hb].
        -- lia.
        -- apply (min_heap_root r heap b Hheap). by right.
        -- pose proof (Hdom a r Ha ltac:(left)). lia.
        -- apply Hdom; [done|by right].
    + apply Player_gt_false in Hgt.
      eexists. split; [done|]. split; [|split; [lia|done]].
      split; [simpl in *; lia|]. exists (p :: rest). split.
      * rewrite Hperm. rewrite <-Permutation_cons_append.
        by rewrite <-Permutation_middle.
      * intros a b Ha Hb. apply elem_of_cons in Ha as [->|Ha]; [|by apply Hdom].
        pose proof (min_heap_root r heap b Hheap Hb). lia.
Qed.

End RankIncomingInvariant.

Section RankIncomingLoop.
Context `{StdAlgorithms}.
Variable R : nat.
Hypothesis R_pos : 1 ≤ R.

Lemma loop_inv_init s :
  loop_inv R [] {| ls_stream := s; ls_topPlayers := []; ls_cutoffs := ∅;
                   ls_playerCount := 0 |}.
Proof.
  split; simpl; try done.
  - rewrite Nat.min_0_r. split; [done|]. exists []. split; [done|].
    intros a b Ha. by apply elem_of_nil in Ha.
  - intros k. rewrite lookup_empty. split; [by intros [? ?]|lia].
Qed.

(** A positive multiple of [R] is at least [R]. *)
Lemma multiple_ge k : 1 ≤ k → k `mod` R = 0 → R ≤ k.
Proof.
  intros Hk Hm. apply Nat.Div0.mod_divides in Hm as [q ->]. destruct q; nia.
Qed.

(** The front of a full leader buffer is the cutoff of the players seen. *)
Lemma front_is_cutoff seen r heap :
  R ≤ length seen →
  is_top (R `min` length seen) seen (r :: heap) → is_min_heap (r :: heap) →
  is_cutoff R seen (level_ r).
Proof.
  intros Hge Htop Hheap. rewrite Nat.min_l in Htop by done.
  exists (r :: heap). split; [done|]. split.
  - exists r. split; [by left|done].
  - intros b Hb. by apply (min_heap_root r heap).
Qed.

Lemma rankIncoming_body_spec fuel st seen p todo :
  R ≤ fuel →
  wf_stream (ls_stream st) → pending (ls_stream st) = p :: todo →
  loop_inv R seen st →
  ∃ st', rankIncoming_body fuel R st = inr st' ∧
    wf_stream (ls_stream st') ∧ pending (ls_stream st') = todo ∧
    loop_inv R (seen ++ [p]) st'.
Proof.
  intros Hfuel Hwf Hpend [Hcount Htop Hpre Hheap Hkeys Hvals].
  destruct (nextPlayer_pending _ _ _ Hwf Hpend) as (s' & Hnext & Hwf' & Hpend' & _).
  destruct (update_top_spec R R_pos fuel seen (ls_topPlayers st) p Hfuel Htop Hpre Hheap)
    as (tp' & Hup & Htop' & Hpre' & Hheap').
  rewrite rankIncoming_body_unfold, Hnext. cbn [bind]. rewrite Hup. cbn [bind].
  assert (length (seen ++ [p]) = S (length seen)) as Hlen
    by (rewrite length_app; simpl; lia).
  assert (∀ k, k ≤ length seen → take k (seen ++ [p]) = take k seen) as Htake
    by (intros k Hk; by rewrite take_app_le).
  unfold record_cutoff.
  destruct (Nat.eqb_spec R 0) as [?|_]; [lia|].
  rewrite Hcount.
  destruct (Nat.eqb_spec (S (length seen) `mod` R) 0) as [Hmod|Hmod].
  - pose proof (multiple_ge (S (length seen)) ltac:(lia) Hmod) as Hge.
    rewrite <-Hlen in Hge.
    destruct tp' as [|r heap].
    { destruct Htop' as [Hl _]. simpl in Hl. lia. }
    cbn [front bind ret]. eexists. split; [done|]. split; [done|]. split; [done|].
    split; simpl; try done.
    + intros k. rewrite Hlen. destruct (decide (k = S (length seen))) as [->|Hk].
      * rewrite lookup_insert_eq. split; [intros _; split; [lia|done]|eauto].
      * rewrite lookup_insert_ne by done. rewrite Hkeys. lia.
    + intros k v. destruct (decide (k = S (length seen))) as [->|Hk].
      * rewrite lookup_insert_eq. intros [= <-].
        rewrite take_ge by lia. apply (front_is_cutoff _ r heap); auto.
      * rewrite lookup_insert_ne by done. intros Hk'.
        assert (k ≤ length seen) as Hle.
        { assert (is_Some (ls_cutoffs st !! k)) as Hs%Hkeys by eauto. lia. }
        rewrite Htake by done. eauto.
  - cbn [ret]. eexists. split; [done|]. split; [done|]. split; [done|].
    split; simpl; try done.
    + intros k. rewrite Hlen, Hkeys. split; [lia|].
      intros [Hk Hm]. split; [|done].
      destruct (decide (k = S (length seen))) as [->|]; [done|lia].
    + intros k v Hk'.
      assert (k ≤ length seen) as Hle.
      { assert (is_Some (ls_cutoffs st !! k)) as Hs%Hkeys by eauto. lia. }
      rewrite Htake by done. eauto.
Qed.

Lemma rankIncoming_loop_spec todo : ∀ fuel st seen,
  length todo + R < fuel →
  wf_stream (ls_stream st) → pending (ls_stream st) = todo →
  loop_inv R seen st →
  ∃ st', rankIncoming_loop fuel R st = inr st' ∧
    wf_stream (ls_stream st') ∧ pending (ls_stream st') = [] ∧
    loop_inv R (seen ++ todo) st'.
Proof.
  induction todo as [|p todo IH]; intros fuel st seen Hfuel Hwf Hpend Hinv.
  - destruct fuel as [|fuel]; [lia|]. simpl.
    assert ((0 <? remaining (ls_stream st))%Z = false) as ->.
    { apply not_true_is_false. rewrite remaining_pos_pending by done.
      rewrite Hpend. by intros Hne. }
    exists st. rewrite app_nil_r. done.
  - destruct fuel as [|fuel]; [simpl in Hfuel; lia|]. simpl in *.
    assert ((0 <? remaining (ls_stream st))%Z = true) as ->.
    { rewrite remaining_pos_pending by done. by rewrite Hpend. }
    destruct (rankIncoming_body_spec fuel st seen p todo ltac:(lia) Hwf Hpend Hinv)
      as (st1 & -> & Hwf1 & Hpend1 & Hinv1).
    cbn [bind].
    destruct (IH fuel st1 (seen ++ [p]) ltac:(lia) Hwf1 Hpend1 Hinv1)
      as (st' & -> & Hwf' & Hpend' & Hinv').
    exists st'. rewrite <-app_assoc in Hinv'. done.
Qed.

End RankIncomingLoop.

(** ** The levels of a selection *)

Lemma is_sorted_cons a l :
  is_sorted (a :: l) ↔ (∀ b, b ∈ l → (level_ a ≤ level_ b)%N) ∧ is_sorted l.
Proof.
  split.
  - intros Hs. split.
    + intros b [j Hj]%list_elem_of_lookup.
      apply Player_lt_false. apply (Hs 0 (S j)); [lia|done..].
    + intros i j x y Hij Hi Hj. apply (Hs (S i) (S j)); [lia|done..].
  - intros [Ha Hs] i j x y Hij Hi Hj.
    destruct j as [|j]; [lia|]. destruct i as [|i]; simplify_eq/=.
    + apply Player_lt_false, Ha. by eapply list_elem_of_lookup_2.
    + apply (Hs i j); [lia|done..].
Qed.

Lemma is_sorted_levels l : is_sorted l ↔ StronglySorted N.le (levels l).
Proof.
  unfold levels. induction l as [|a l IH]; simpl.
  - split; [constructor|]. intros _ i j x y _ Hi. by rewrite lookup_nil in Hi.
  - rewrite is_sorted_cons, StronglySorted_cons, IH, Forall_fmap, Forall_forall. done.
Qed.

Lemma sorted_levels_sorted l : StronglySorted N.le (sorted_levels l).
Proof. apply StronglySorted_merge_sort; apply _. Qed.

Lemma sorted_levels_Permutation l : sorted_levels l ≡ₚ levels l.
Proof. apply merge_sort_Permutation. Qed.

Lemma sorted_levels_length l : length (sorted_levels l) = length l.
Proof. rewrite sorted_levels_Permutation. unfold levels. by rewrite length_fmap. Qed.

(** A sorted choice of the [k] highest levels of [l] carries exactly the
    last [k] levels of [l] in ascending order: whichever players are
    chosen among equals, the levels are determined. *)
Lemma is_top_levels k l tp :
  is_top k l tp → is_sorted tp →
  levels tp = drop (length l - k) (sorted_levels l).
Proof.
  intros [Hlen (rest & Hperm & Hdom)] Hs.
  assert (sorted_levels l = sorted_levels rest ++ levels tp) as ->.
  { apply (StronglySorted_unique N.le).
    - apply sorted_levels_sorted.
    - apply StronglySorted_app_2.
      + intros x1 x2 Hx1 Hx2. rewrite sorted_levels_Permutation in Hx1.
        apply list_elem_of_fmap in Hx1 as (a & -> & Ha).
        apply list_elem_of_fmap in Hx2 as (b & -> & Hb). by apply Hdom.
      + apply sorted_levels_sorted.
      + by apply is_sorted_levels.
    - rewrite !sorted_levels_Permutation. unfold levels.
      rewrite Hperm, fmap_app. apply Permutation_app_comm. }
  assert (length l - k = length (sorted_levels rest)) as ->.
  { rewrite sorted_levels_length, Hperm, length_app. lia. }
  by rewrite drop_app_length.
Qed.

(** ** [rankIncoming] on a stream that holds players *)

Section RankIncomingResult.
Context `{StdAlgorithms}.

Lemma rankIncoming_spec fuel s R :
  1 ≤ R → wf_stream s → pending s ≠ [] → length (pending s) + R < fuel →
  ∃ st f heap,
    ls_topPlayers st = f :: heap ∧
    loop_inv R (pending s) st ∧ pending (ls_stream st) = [] ∧
    rankIncoming fuel s R =
      inr ({| top_ := sort (f :: heap); cutoffs_ := final_cutoffs st f |},
           ls_stream st).
Proof.
  intros HR Hwf Hne Hfuel. unfold rankIncoming.
  destruct (rankIncoming_loop_spec R HR (pending s) fuel
              {| ls_stream := s; ls_topPlayers := []; ls_cutoffs := ∅;
                 ls_playerCount := 0 |} [] Hfuel Hwf eq_refl (loop_inv_init R HR s))
    as (st & -> & Hwf' & Hpend & Hinv).
  simpl in Hinv. cbn [bind].
  destruct (ls_topPlayers st) as [|f heap] eqn:Htp.
  { destruct Hinv as [_ [Hlen _] _ _ _ _]. rewrite Htp in Hlen.
    destruct (pending s); simpl in *; [done|lia]. }
  exists st, f, heap. split; [done|]. split; [done|]. split; [done|].
  unfold final_cutoffs. by case_decide.
Qed.

End RankIncomingResult.

(** ** A conforming implementation of the library algorithms

    The guarantees collected in [StdAlgorithms] can be met: sorting by
    level meets all of them (a vector sorted in descending order is a
    max-heap, one sorted in ascending order a min-heap and partitioned at
    every position). *)

Lemma StronglySorted_lookup {A} (Rel : relation A) l i j x y :
  StronglySorted Rel l → i < j → l !! i = Some x → l !! j = Some y → Rel x y.
Proof.
  intros Hs. revert i j. induction Hs as [|a l Hs IH Ha]; intros i j Hij Hi Hj.
  - by rewrite lookup_nil in Hi.
  - destruct j as [|j]; [lia|]. destruct i as [|i]; simplify_eq/=.
    + rewrite Forall_forall in Ha. apply Ha. by eapply list_elem_of_lookup_2.
    + apply (IH i j); [lia|done..].
Qed.

Lemma sort_by_level_sorted l : StronglySorted level_le (sort_by_level l).
Proof. apply StronglySorted_merge_sort; apply _. Qed.

Lemma sort_by_level_is_sorted l : is_sorted (sort_by_level l).
Proof.
  intros i j x y Hij Hi Hj. apply Player_lt_false.
  apply (StronglySorted_lookup level_le _ i j x y (sort_by_level_sorted l)); done.
Qed.

Lemma ref_make_heap_is_heap c l : is_heap c (ref_make_heap c l).
Proof.
  intros i j x y Hc Hi Hj.
  assert (i < j) as Hij by (unfold is_child in Hc; lia).
  destruct c; simpl in *.
  - apply Player_lt_false.
    assert (StronglySorted (flip level_le) (reverse (sort_by_level l))) as Hs.
    { apply Sorted_StronglySorted; [intros a b c ??; by trans b|].
      apply Sorted_reverse, StronglySorted_Sorted, sort_by_level_sorted. }
    apply (StronglySorted_lookup _ _ i j x y Hs); done.
  - apply Player_gt_false.
    apply (StronglySorted_lookup level_le _ i j x y (sort_by_level_sorted l)); done.
Qed.

Lemma ref_make_heap_Permutation c l : ref_make_heap c l ≡ₚ l.
Proof.
  destruct c; simpl; unfold sort_by_level.
  - by rewrite reverse_Permutation, merge_sort_Permutation.
  - by rewrite merge_sort_Permutation.
Qed.

Definition reference_algorithms : StdAlgorithms.
Proof.
  refine {| make_heap := ref_make_heap;
            pop_heap := ref_pop_heap;
            sort := sort_by_level;
            nth_element := λ _ l, sort_by_level l |}.
  - apply ref_make_heap_Permutation.
  - apply ref_make_heap_is_heap.
  - intros x l _. exists (ref_make_heap less l).
    split; [done|]. split; [apply ref_make_heap_Permutation|apply ref_make_heap_is_heap].
  - intros l. apply merge_sort_Permutation.
  - apply sort_by_level_is_sorted.
  - intros n l _. apply merge_sort_Permutation.
  - intros n l _ i j x y Hi Hj. apply sort_by_level_is_sorted. lia.
Defined.

(** ** The offline selectors *)

Section Offline.
Context `{StdAlgorithms}.

(** [n] extractions from a max-heap of at least [n] players succeed; the
    players extracted are appended to the accumulator, they have levels at
    least those of the players left, and the players left form a
    max-heap. *)
Lemma heapRank_loop_spec n : ∀ players topPlayers,
  is_max_heap players → n ≤ length players →
  ∃ players' extracted,
    heapRank_loop n players topPlayers = inr (players', topPlayers ++ extracted) ∧
    length extracted = n ∧
    players ≡ₚ extracted ++ players' ∧
    dominates extracted players' ∧
    is_max_heap players'.
Proof.
  induction n as [|n IH]; intros players topPlayers Hheap Hlen.
  - exists players, []. rewrite app_nil_r. simpl. split; [done|].
    split; [done|]. split; [done|]. split; [|done].
    intros a b _ Hb. by apply elem_of_nil in Hb.
  - destruct players as [|x l]; [simpl in Hlen; lia|].
    destruct (pop_heap_spec x l Hheap) as (h & Hpop & Hperm & Hheap').
    destruct (IH h (topPlayers ++ [x]) Hheap') as
      (players' & extracted & Hloop & Hlen' & Hperm' & Hdom & Hheap'').
    { rewrite Hperm. simpl in Hlen. lia. }
    exists players', (x :: extracted).
    cbn [heapRank_loop]. rewrite decide_False by done. rewrite Hpop.
    unfold back. rewrite last_snoc. cbn [bind ret].
    rewrite removelast_last, Hloop, <-app_assoc. simpl.
    split; [done|]. split; [by rewrite Hlen'|].
    split; [by rewrite <-Hperm', Hperm|]. split; [|done].
    intros a b Ha Hb. apply elem_of_cons in Hb as [->|Hb]; [|by apply Hdom].
    apply (max_heap_root x l a Hheap). right.
    rewrite <-Hperm, Hperm'. apply elem_of_app. by right.
Qed.

Lemma heapRank_spec players :
  ∃ top players',
    heapRank players = inr ({| top_ := top; cutoffs_ := ∅ |}, players') ∧
    is_sorted top ∧
    is_top (length players / 10) players top ∧
    length players' = length players - length players / 10.
Proof.
  unfold heapRank.
  pose proof (make_heap_Permutation less players) as Hperm.
  pose proof (make_heap_is_heap less players) as Hheap.
  assert (length (make_heap less players) = length players) as Hlen by by rewrite Hperm.
  pose proof (Nat.Div0.div_le_upper_bound (length players) 10 (length players)
                ltac:(lia)) as Hdiv.
  destruct (heapRank_loop_spec (length players / 10) (make_heap less players) [] Hheap)
    as (players' & extracted & Hloop & Hlen' & Hperm' & Hdom & _); [lia|].
  rewrite Hlen, Hloop. cbn [bind ret app].
  exists (sort extracted), players'. split; [done|].
  split; [apply sort_is_sorted|]. split.
  - eapply is_top_Permutation; [apply sort_Permutation|].
    split; [done|]. exists players'. split; [by rewrite <-Hperm', Hperm|done].
  - apply Permutation_length in Hperm'. revert Hperm'.
    rewrite Hlen, length_app. lia.
Qed.

Lemma quickSelectRank_spec players :
  ∃ top players',
    quickSelectRank players = ({| top_ := top; cutoffs_ := ∅ |}, players') ∧
    is_sorted top ∧
    is_top (length players / 10) players top ∧
    players' ≡ₚ players.
Proof.
  unfold quickSelectRank.
  pose proof (Nat.Div0.div_le_upper_bound (length players) 10 (length players)
                ltac:(lia)) as Hdiv.
  set (k := length players - length players / 10).
  assert (k ≤ length players) as Hk by (unfold k; lia).
  pose proof (nth_element_Permutation k players Hk) as Hperm.
  pose proof (nth_element_is_partitioned k players Hk) as Hpart.
  eexists _, _. split; [done|]. split; [apply sort_is_sorted|]. split; [|done].
  eapply is_top_Permutation; [apply sort_Permutation|]. split.
  - rewrite length_drop, Hperm. unfold k. lia.
  - exists (take k (nth_element k players)). split.
    + rewrite <-Hperm at 1. rewrite <-(take_drop k (nth_element k players)) at 1.
      apply Permutation_app_comm.
    + intros a b [i Hi]%list_elem_of_lookup [j Hj]%list_elem_of_lookup.
      apply Player_lt_false.
      pose proof (lookup_lt_Some _ _ _ Hi) as Hlt. rewrite length_take in Hlt.
      rewrite lookup_take_lt in Hi by lia. rewrite lookup_drop in Hj.
      apply (Hpart i (k + j)); [lia|lia|done..].
Qed.

End Offline.

(** C6. On every collection, [heapRank] and [quickSelectRank] (each on its
    own copy) return top subsets that are sorted ascending, have
    [floor(|C| / 10)] players, and carry the same multiset of levels.  This
    holds for every collection, so in particular for the non-empty ones with
    no tied levels across the partition boundary. *)
Theorem heapRank_quickSelectRank_agree `{StdAlgorithms} (C : list Player) :
  ∃ rh ph rq pq,
    heapRank C = inr (rh, ph) ∧ quickSelectRank C = (rq, pq) ∧
    levels (top_ rh) ≡ₚ levels (top_ rq) ∧
    is_sorted (top_ rh) ∧ is_sorted (top_ rq) ∧
    length (top_ rh) = length C / 10 ∧ length (top_ rq) = length C / 10.
Proof.
  destruct (heapRank_spec C) as (th & ph & Hh & Hsh & Htoph & _).
  destruct (quickSelectRank_spec C) as (tq & pq & Hq & Hsq & Htopq & _).
  eexists _, ph, _, pq. split; [exact Hh|]. split; [exact Hq|]. simpl.
  split; [|split; [done|split; [done|split; [apply Htoph|apply Htopq]]]].
  by rewrite (is_top_levels _ _ _ Htoph Hsh), (is_top_levels _ _ _ Htopq Hsq).
Qed.

(** C9. On a collection of fewer than 10 players (the empty one included),
    [heapRank] and [quickSelectRank] both return, without error, a result
    whose top subset is empty. *)
Theorem small_collection_empty_top `{StdAlgorithms} (C : list Player) :
  length C < 10 →
  (∃ rh ph, heapRank C = inr (rh, ph) ∧ top_ rh = []) ∧
  top_ (quickSelectRank C).1 = [].
Proof.
  intros Hlen.
  assert (length C / 10 = 0) as Hz by by apply Nat.div_small.
  split.
  - destruct (heapRank_spec C) as (th & ph & Hh & _ & [Hl _] & _).
    eexists _, ph. split; [exact Hh|]. simpl.
    rewrite Hz in Hl. by apply nil_length_inv.
  - destruct (quickSelectRank_spec C) as (tq & pq & Hq & _ & [Hl _] & _).
    rewrite Hq. simpl. rewrite Hz in Hl. by apply nil_length_inv.
Qed.

(** C10. After [quickSelectRank], the caller's vector holds the same
    multiset of players as before, so it keeps its size: it is reordered,
    never shrunk.  After [heapRank], the caller's vector is shorter by
    [floor(|C| / 10)] players. *)
Theorem quickSelectRank_keeps_players `{StdAlgorithms} (C : list Player) :
  (quickSelectRank C).2 ≡ₚ C ∧
  length (quickSelectRank C).2 = length C ∧
  ∃ rh ph, heapRank C = inr (rh, ph) ∧ length ph = length C - length C / 10.
Proof.
  destruct (quickSelectRank_spec C) as (tq & pq & Hq & _ & _ & Hperm).
  destruct (heapRank_spec C) as (th & ph & Hh & _ & _ & Hlen).
  rewrite Hq. simpl. split; [done|]. split; [by rewrite Hperm|].
  eexists _, ph. split; [exact Hh|done].
Qed.

(** ** What [rankIncoming] returns *)

Section RankIncomingTheorems.
Context `{StdAlgorithms}.

(** On a stream that holds players, [rankIncoming] returns a result; its
    top subset is sorted and is a choice of the [min R n] highest levels
    of the [n] players read. *)
Lemma rankIncoming_top_spec fuel s R :
  1 ≤ R → wf_stream s → pending s ≠ [] → length (pending s) + R < fuel →
  ∃ res s',
    rankIncoming fuel s R = inr (res, s') ∧ pending s' = [] ∧
    is_sorted (top_ res) ∧
    is_top (R `min` length (pending s)) (pending s) (top_ res).
Proof.
  intros HR Hwf Hne Hfuel.
  destruct (rankIncoming_spec fuel s R HR Hwf Hne Hfuel)
    as (st & f & heap & Htp & Hinv & Hpend & ->).
  eexists _, _. split; [done|]. split; [done|]. simpl.
  split; [apply sort_is_sorted|].
  eapply is_top_Permutation; [apply sort_Permutation|].
  rewrite <-Htp. apply Hinv.
Qed.

(** The keys of the cutoffs are the positive multiples of [R] up to the
    number [n] of players read, and [n] itself; when at least [R] players
    were read, the value at each key [k] is the lowest level among [R]
    players with the highest levels of the first [k] players read. *)
Lemma rankIncoming_cutoffs_spec fuel s R :
  1 ≤ R → wf_stream s → pending s ≠ [] → length (pending s) + R < fuel →
  ∃ res s',
    rankIncoming fuel s R = inr (res, s') ∧
    (∀ k, is_Some (cutoffs_ res !! k) ↔
       (1 ≤ k ≤ length (pending s) ∧ k `mod` R = 0) ∨ k = length (pending s)) ∧
    (R ≤ length (pending s) →
       ∀ k v, cutoffs_ res !! k = Some v → is_cutoff R (take k (pending s)) v).
Proof.
  intros HR Hwf Hne Hfuel.
  destruct (rankIncoming_spec fuel s R HR Hwf Hne Hfuel)
    as (st & f & heap & Htp & Hinv & Hpend & ->).
  destruct Hinv as [Hcount Htop Hpre Hheap Hkeys Hvals].
  eexists _, _. split; [done|]. simpl. unfold final_cutoffs. rewrite Hcount.
  split.
  - intros k. case_decide as Hnone.
    + destruct (decide (k = length (pending s))) as [->|Hk].
      * rewrite lookup_insert_eq. split; [auto|by eauto].
      * rewrite lookup_insert_ne by done. rewrite Hkeys. tauto.
    + rewrite Hkeys. split; [auto|]. intros [?| ->]; [done|].
      apply Hkeys. by apply not_eq_None_Some.
  - intros Hge k v. case_decide as Hnone; [|by apply Hvals].
    destruct (decide (k = length (pending s))) as [->|Hk].
    + rewrite lookup_insert_eq. intros [= <-]. rewrite take_ge by done.
      rewrite Htp in Htop, Hheap. apply (front_is_cutoff R _ f heap); auto.
    + rewrite lookup_insert_ne by done. apply Hvals.
Qed.

(** On a stream of fewer than [R] players the leader buffer never becomes
    a heap: the only cutoff maps the count to the level of the first player
    read. *)
Lemma rankIncoming_short_stream fuel s R p todo :
  wf_stream s → pending s = p :: todo → length (pending s) < R →
  length (pending s) + R < fuel →
  ∃ res s',
    rankIncoming fuel s R = inr (res, s') ∧
    cutoffs_ res = {[ length (pending s) := level_ p ]}.
Proof.
  intros Hwf Hp Hlt Hfuel.
  destruct (rankIncoming_spec fuel s R ltac:(lia) Hwf ltac:(by rewrite Hp) Hfuel)
    as (st & f & heap & Htp & Hinv & Hpend & ->).
  destruct Hinv as [Hcount Htop Hpre Hheap Hkeys Hvals].
  eexists _, _. split; [done|]. simpl. unfold final_cutoffs. rewrite Hcount.
  assert (ls_cutoffs st = ∅) as ->.
  { apply map_empty. intros k. apply eq_None_not_Some. rewrite Hkeys.
    intros [Hk Hm]. rewrite Nat.mod_small in Hm by lia. lia. }
  rewrite lookup_empty, decide_True by done.
  rewrite (Hpre Hlt), Hp in Htp. by simplify_eq.
Qed.

(** With a full leader buffer, a player whose level does not exceed the
    level at the front is dropped: the buffer is left as it is. *)
Lemma update_top_tie_dropped fuel R f heap p :
  length (f :: heap) = R → (level_ p ≤ level_ f)%N →
  update_top fuel R (f :: heap) p = inr (f :: heap).
Proof.
  intros Hlen Hle. unfold update_top.
  destruct (Nat.ltb_spec (length (f :: heap)) R); [lia|]. cbn [front bind ret].
  apply Player_gt_false in Hle. by rewrite Hle.
Qed.

(** With fuel above the number of players to read plus the reporting
    interval, no loop of [rankIncoming] is cut short. *)
Lemma rankIncoming_enough_fuel fuel s R :
  wf_stream s → length (pending s) + R < fuel →
  rankIncoming fuel s R ≠ inl out_of_fuel.
Proof.
  intros Hwf Hfuel.
  destruct (pending s) as [|p todo] eqn:Hp.
  - unfold rankIncoming.
    assert (rankIncoming_loop fuel R
              {| ls_stream := s; ls_topPlayers := []; ls_cutoffs := ∅;
                 ls_playerCount := 0 |} =
            inr {| ls_stream := s; ls_topPlayers := []; ls_cutoffs := ∅;
                   ls_playerCount := 0 |}) as ->.
    { destruct fuel; simpl.
      all: assert ((0 <? remaining s)%Z = false) as ->; [|done].
      all: apply not_true_is_false; rewrite remaining_pos_pending by done.
      all: rewrite Hp; by intros Hne. }
    done.
  - destruct (decide (R = 0)) as [->|HR].
    + destruct fuel as [|fuel]; [simpl in Hfuel; lia|].
      destruct (nextPlayer_pending _ _ _ Hwf Hp) as (s' & Hnext & _).
      unfold rankIncoming. simpl.
      assert ((0 <? remaining s)%Z = true) as ->.
      { rewrite remaining_pos_pending by done. by rewrite Hp. }
      rewrite rankIncoming_body_unfold. simpl. rewrite Hnext. done.
    + destruct (rankIncoming_top_spec fuel s R ltac:(lia) Hwf) as (res & s' & -> & _).
      * by rewrite Hp.
      * by rewrite Hp.
      * done.
Qed.

End RankIncomingTheorems.

(** C8. On a stream in a state its constructor and [nextPlayer] can reach,
    [nextPlayer] throws its exhaustion error exactly when [remaining] is
    zero; and [rankIncoming], for every fuel and every reporting interval,
    never ends in that error: it fetches only after [remaining() > 0].
    No fetch is hidden behind the fuel: with enough of it the call is not
    cut short. *)
Theorem rankIncoming_never_exhausts `{StdAlgorithms} (s : VectorPlayerStream) :
  wf_stream s →
  ((∃ what, nextPlayer s = inl (runtime_error what)) ↔ remaining s = 0%Z) ∧
  (∀ fuel reporting_interval what,
     rankIncoming fuel s reporting_interval ≠ inl (runtime_error what)) ∧
  (∀ fuel reporting_interval,
     length (pending s) + reporting_interval < fuel →
     rankIncoming fuel s reporting_interval ≠ inl out_of_fuel).
Proof.
  intros Hwf. split; [|split].
  - by apply nextPlayer_exhausted.
  - intros fuel R what. by apply rankIncoming_no_throw.
  - intros fuel R Hfuel. by apply rankIncoming_enough_fuel.
Qed.

(** ** Checking a heap by computation *)

Lemma is_heap_b_correct c l : is_heap_b c l = true → is_heap c l.
Proof.
  unfold is_heap_b. rewrite forallb_forall. intros Hall i j x y Hc Hi Hj.
  specialize (Hall i). rewrite andb_true_iff in Hall.
  destruct Hall as [Hl Hr].
  { apply in_seq. pose proof (lookup_lt_Some _ _ _ Hi). lia. }
  unfold heap_pair_ok in Hl, Hr. rewrite Hi in Hl, Hr.
  destruct Hc as [-> | ->].
  - rewrite Hj in Hl. by apply negb_true_iff.
  - rewrite Hj in Hr. by apply negb_true_iff.
Qed.

(** ** Where the code departs from the specification *)

(** C2. On a stream that holds no player the loop body never runs, the
    count stays zero and is not a key of the cutoffs, and [rankIncoming]
    reads the front of the empty leader buffer: for every fuel and every
    reporting interval the call ends in undefined behaviour, not in a
    result. *)
Theorem rankIncoming_empty_stream `{StdAlgorithms} (fuel R : nat) :
  rankIncoming fuel (VectorPlayerStream_new []) R =
    inl (undefined_behaviour "front() of an empty vector").
Proof. destruct fuel; reflexivity. Qed.

(** C1. Two players with levels 5 and 3 and a reporting interval of 3: the
    forced final entry maps the count 2 to 5, the level of the first player
    read, while the lowest level read is 3. *)
Theorem rankIncoming_short_stream_front `{StdAlgorithms} :
  let players := [mkPlayer "a" 5; mkPlayer "b" 3] in
  ∃ res s',
    rankIncoming 6 (VectorPlayerStream_new players) 3 = inr (res, s') ∧
    cutoffs_ res = {[ 2 := 5%N ]} ∧
    min_level players = Some 3%N.
Proof.
  intros players.
  destruct (rankIncoming_short_stream 6 (VectorPlayerStream_new players) 3
              (mkPlayer "a" 5) [mkPlayer "b" 3]) as (res & s' & Hrun & Hcut).
  - by apply wf_stream_new.
  - done.
  - simpl. lia.
  - simpl. lia.
  - exists res, s'. done.
Qed.

(** C4. Three players with levels 4, 2 and 6 and a reporting interval of
    5: the key set is as specified (no multiple of 5 was reached, the final
    count 3 is the only key), but the value at 3 is 4, the level of the
    first player read, while the lowest level in the leader buffer is 2. *)
Theorem rankIncoming_short_stream_keys `{StdAlgorithms} :
  let players := [mkPlayer "q" 4; mkPlayer "r" 2; mkPlayer "s" 6] in
  ∃ res s',
    rankIncoming 9 (VectorPlayerStream_new players) 5 = inr (res, s') ∧
    dom (cutoffs_ res) = ({[ 3 ]} : gset nat) ∧
    cutoffs_ res !! 3 = Some 4%N ∧
    min_level players = Some 2%N.
Proof.
  intros players.
  destruct (rankIncoming_short_stream 9 (VectorPlayerStream_new players) 5
              (mkPlayer "q" 4) [mkPlayer "r" 2; mkPlayer "s" 6])
    as (res & s' & Hrun & Hcut).
  - by apply wf_stream_new.
  - done.
  - simpl. lia.
  - simpl. lia.
  - exists res, s'. split; [done|]. rewrite Hcut. simpl.
    split; [apply dom_singleton_L|]. split; [apply lookup_singleton_eq|done].
Qed.

(** The run on [tie_stream], up to the point where the library has made a
    heap of the first three players. *)
Lemma rankIncoming_tie_run `{StdAlgorithms} :
  rankIncoming 11 (VectorPlayerStream_new tie_stream) 3 =
    tie_run (make_heap greater
               [mkPlayer "p1" 1; mkPlayer "p2" 1; mkPlayer "p3" 1]).
Proof. reflexivity. Qed.

Lemma three_of_level_1 (h : list Player) :
  h ≡ₚ [mkPlayer "p1" 1; mkPlayer "p2" 1; mkPlayer "p3" 1] →
  ∃ a b c, h = [mkPlayer a 1; mkPlayer b 1; mkPlayer c 1].
Proof.
  intros Hp.
  assert (Forall (λ p, level_ p = 1%N) h) as Hall.
  { rewrite Hp. repeat constructor. }
  pose proof (Permutation_length Hp) as Hlen.
  destruct h as [|[a la] [|[b lb] [|[c lc] [|]]]]; simplify_eq/=.
  repeat match goal with H : Forall _ (_ :: _) |- _ => inversion_clear H end.
  simplify_eq/=. eauto.
Qed.

Lemma first_seen_top_tie_stream :
  first_seen_top 3 tie_stream =
    [mkPlayer "t" 9; mkPlayer "u" 9; mkPlayer "x" 5].
Proof. reflexivity. Qed.

Lemma x_not_among_y_t_u :
  mkPlayer "x" 5 ∉ [mkPlayer "y" 5; mkPlayer "t" 9; mkPlayer "u" 9].
Proof.
  intros Hx. repeat (apply elem_of_cons in Hx as [Hx|Hx]; [discriminate|]).
  by apply elem_of_nil in Hx.
Qed.

(** Whatever heap the library makes of the first three players (all of
    level 1), the run on [tie_stream] ends with [y], [t] and [u] in the
    leader buffer: when [t] arrives, [x] and [y] are the children of the
    root, the left child [x] moves to the root, and [u] then evicts it. *)
Lemma rankIncoming_tie_any_library `{StdAlgorithms} :
  ∃ res s',
    rankIncoming 11 (VectorPlayerStream_new tie_stream) 3 = inr (res, s') ∧
    top_ res ≡ₚ [mkPlayer "y" 5; mkPlayer "t" 9; mkPlayer "u" 9].
Proof.
  rewrite rankIncoming_tie_run.
  destruct (three_of_level_1 _ (make_heap_Permutation greater _)) as (a & b & c & ->).
  eexists _, _. split; [vm_compute; reflexivity|].
  change (sort [mkPlayer "y" 5; mkPlayer "t" 9; mkPlayer "u" 9]
            ≡ₚ [mkPlayer "y" 5; mkPlayer "t" 9; mkPlayer "u" 9]).
  apply sort_Permutation.
Qed.

(** C3, as stated, fails. With a reporting interval of 3 on [tie_stream],
    first-seen precedence keeps [x] (read fourth) and leaves out [y] (read
    fifth); [rankIncoming] returns [y] and not [x]. *)
Lemma rankIncoming_tie_counterexample :
  ∃ res s',
    @rankIncoming reference_algorithms 11 (VectorPlayerStream_new tie_stream) 3
      = inr (res, s') ∧
    mkPlayer "x" 5 ∈ first_seen_top 3 tie_stream ∧
    (mkPlayer "x" 5 ∉ top_ res) ∧
    mkPlayer "y" 5 ∈ top_ res ∧
    ¬ (top_ res ≡ₚ first_seen_top 3 tie_stream).
Proof.
  destruct (@rankIncoming_tie_any_library reference_algorithms)
    as (res & s' & Hrun & Hperm).
  exists res, s'. split; [done|].
  pose proof x_not_among_y_t_u as Hout.
  assert (mkPlayer "x" 5 ∈ first_seen_top 3 tie_stream) as Hin
    by (rewrite first_seen_top_tie_stream; do 2 right; left).
  split; [done|]. split; [by rewrite Hperm|]. split; [rewrite Hperm; left|].
  intros Hperm'. apply Hout. by rewrite <-Hperm, Hperm'.
Qed.

(** ** Further properties of the code *)

(** On a stream of [n >= 1] players and for [R >= 1], the keys of the
    cutoffs returned by [rankIncoming] are exactly the positive multiples of
    [R] up to [n], and [n]; when [n >= R], the value at each key [k] is the
    lowest level among [R] players with the highest levels of the first [k]
    players read. *)
Theorem rankIncoming_cutoffs `{StdAlgorithms} (fuel : nat) (s : VectorPlayerStream) (R : nat) :
  1 ≤ R → wf_stream s → pending s ≠ [] → length (pending s) + R < fuel →
  ∃ res s',
    rankIncoming fuel s R = inr (res, s') ∧
    (∀ k, is_Some (cutoffs_ res !! k) ↔
       (1 ≤ k ≤ length (pending s) ∧ k `mod` R = 0) ∨ k = length (pending s)) ∧
    (R ≤ length (pending s) →
       ∀ k v, cutoffs_ res !! k = Some v → is_cutoff R (take k (pending s)) v).
Proof. apply rankIncoming_cutoffs_spec. Qed.

(** On a stream of fewer than [R] players, the only cutoff returned by
    [rankIncoming] maps the number of players read to the level of the
    first player read. *)
Theorem rankIncoming_short_stream_cutoff `{StdAlgorithms} (fuel : nat)
    (s : VectorPlayerStream) (R : nat) (p : Player) (todo : list Player) :
  wf_stream s → pending s = p :: todo → length (pending s) < R →
  length (pending s) + R < fuel →
  ∃ res s',
    rankIncoming fuel s R = inr (res, s') ∧
    cutoffs_ res = {[ length (pending s) := level_ p ]}.
Proof. apply rankIncoming_short_stream. Qed.

(** The loop of [replaceMin] runs at most [floor(log2 heapSize) + 1]
    times. *)
Theorem replaceMin_logarithmic (heap : list Player) (target : Player) :
  ∃ heap', ∀ fuel, Nat.log2 (length heap) < fuel →
    replaceMin fuel heap target = Some heap'.
Proof.
  destruct heap as [|x heap]; [by exists []|].
  destruct (percolate_terminates_log (S (Nat.log2 (length (x :: heap))))
              (target :: heap) (length (x :: heap)) 0) as [heap' Hp]; [simpl; lia..|].
  exists heap'. intros fuel Hf. simpl. eapply percolate_fuel_mono; [exact Hp|lia].
Qed.

(** The offline selectors return no cutoffs, and the levels of their top
    subsets are the [floor(N / 10)] highest levels of the collection in
    ascending order. *)
Theorem offline_top_levels `{StdAlgorithms} (C : list Player) :
  (∃ rh ph, heapRank C = inr (rh, ph) ∧ cutoffs_ rh = ∅ ∧
     levels (top_ rh) = drop (length C - length C / 10) (sorted_levels C)) ∧
  cutoffs_ (quickSelectRank C).1 = ∅ ∧
  levels (top_ (quickSelectRank C).1) =
    drop (length C - length C / 10) (sorted_levels C).
Proof.
  destruct (heapRank_spec C) as (th & ph & Hh & Hsh & Htoph & _).
  destruct (quickSelectRank_spec C) as (tq & pq & Hq & Hsq & Htopq & _).
  split.
  - eexists _, ph. split; [exact Hh|]. split; [done|]. by apply is_top_levels.
  - rewrite Hq. split; [done|]. by apply is_top_levels.
Qed.

(** ** The theorems at concrete inputs *)

(** [replaceMin_min_heap] on the min-heap of levels 1, 3, 2 with a
    replacement of level 7. *)
Lemma replaceMin_min_heap_witness :
  is_min_heap [mkPlayer "a" 1; mkPlayer "b" 3; mkPlayer "c" 2] ∧
  ∃ heap',
    (∀ fuel, 3 ≤ fuel →
       replaceMin fuel [mkPlayer "a" 1; mkPlayer "b" 3; mkPlayer "c" 2]
                  (mkPlayer "d" 7) = Some heap') ∧
    is_min_heap heap' ∧
    heap' ≡ₚ [mkPlayer "d" 7; mkPlayer "b" 3; mkPlayer "c" 2].
Proof.
  assert (is_min_heap [mkPlayer "a" 1; mkPlayer "b" 3; mkPlayer "c" 2]) as Hheap
    by (apply is_heap_b_correct; reflexivity).
  split; [exact Hheap|].
  exact (replaceMin_min_heap (mkPlayer "a" 1) [mkPlayer "b" 3; mkPlayer "c" 2]
           (mkPlayer "d" 7) Hheap).
Defined.

(** [rankIncoming_never_exhausts] on a stream of two players that has been
    read to its end. *)
Lemma rankIncoming_never_exhausts_witness :
  let s := {| players_ := [mkPlayer "a" 5; mkPlayer "b" 3]; index_ := 2 |} in
  wf_stream s ∧
  ((∃ what, nextPlayer s = inl (runtime_error what)) ↔ remaining s = 0%Z) ∧
  (∀ fuel reporting_interval what,
     @rankIncoming reference_algorithms fuel s reporting_interval
       ≠ inl (runtime_error what)) ∧
  (∀ fuel reporting_interval,
     length (pending s) + reporting_interval < fuel →
     @rankIncoming reference_algorithms fuel s reporting_interval
       ≠ inl out_of_fuel).
Proof.
  intros s.
  assert (wf_stream s) as Hwf by (split; [simpl; lia|reflexivity]).
  split; [exact Hwf|].
  exact (@rankIncoming_never_exhausts reference_algorithms s Hwf).
Defined.

(** [small_collection_empty_top] on a collection of three players. *)
Lemma small_collection_empty_top_witness :
  let C := [mkPlayer "q" 4; mkPlayer "r" 2; mkPlayer "s" 6] in
  length C < 10 ∧
  (∃ rh ph, @heapRank reference_algorithms C = inr (rh, ph) ∧ top_ rh = []) ∧
  top_ (@quickSelectRank reference_algorithms C).1 = [].
Proof.
  intros C.
  assert (length C < 10) as Hlen by (simpl; lia).
  split; [exact Hlen|].
  exact (@small_collection_empty_top reference_algorithms C Hlen).
Defined.

(** [rankIncoming_cutoffs] on [tie_stream] with a reporting interval of 3. *)
Lemma rankIncoming_cutoffs_witness :
  let s := VectorPlayerStream_new tie_stream in
  1 ≤ 3 ∧ wf_stream s ∧ pending s ≠ [] ∧ length (pending s) + 3 < 11 ∧
  ∃ res s',
    @rankIncoming reference_algorithms 11 s 3 = inr (res, s') ∧
    (∀ k, is_Some (cutoffs_ res !! k) ↔
       (1 ≤ k ≤ length (pending s) ∧ k `mod` 3 = 0) ∨ k = length (pending s)) ∧
    (3 ≤ length (pending s) →
       ∀ k v, cutoffs_ res !! k = Some v → is_cutoff 3 (take k (pending s)) v).
Proof.
  intros s.
  assert (1 ≤ 3) as HR by lia.
  assert (wf_stream s) as Hwf by (split; [simpl; lia|reflexivity]).
  assert (pending s ≠ []) as Hne by discriminate.
  assert (length (pending s) + 3 < 11) as Hfuel by (simpl; lia).
  split; [exact HR|]. split; [exact Hwf|]. split; [exact Hne|].
  split; [exact Hfuel|].
  exact (@rankIncoming_cutoffs reference_algorithms 11 s 3 HR Hwf Hne Hfuel).
Defined.

(** [rankIncoming_short_stream_cutoff] on three players and a reporting
    interval of 5. *)
Lemma rankIncoming_short_stream_cutoff_witness :
  let p := mkPlayer "q" 4 in
  let todo := [mkPlayer "r" 2; mkPlayer "s" 6] in
  let s := VectorPlayerStream_new (p :: todo) in
  wf_stream s ∧ pending s = p :: todo ∧ length (pending s) < 5 ∧
  length (pending s) + 5 < 9 ∧
  ∃ res s',
    @rankIncoming reference_algorithms 9 s 5 = inr (res, s') ∧
    cutoffs_ res = {[ length (pending s) := level_ p ]}.
Proof.
  intros p todo s.
  assert (wf_stream s) as Hwf by (split; [simpl; lia|reflexivity]).
  assert (pending s = p :: todo) as Hp by reflexivity.
  assert (length (pending s) < 5) as Hlt by (simpl; lia).
  assert (length (pending s) + 5 < 9) as Hfuel by (simpl; lia).
  split; [exact Hwf|]. split; [exact Hp|]. split; [exact Hlt|].
  split; [exact Hfuel|].
  exact (@rankIncoming_short_stream_cutoff reference_algorithms 9 s 5 p todo
           Hwf Hp Hlt Hfuel).
Defined.

(** * More about the stream *)

Lemma nextPlayer_players_ s p s' :
  nextPlayer s = inr (p, s') → players_ s' = players_ s.
Proof.
  unfold nextPlayer. destruct (_ <=? _); [done|].
  destruct (players_ s !! index_ s); [|done]. intros ?. by simplify_eq/=.
Qed.

Lemma nextPlayers_pending n : ∀ s,
  wf_stream s → n ≤ length (pending s) →
  ∃ s', nextPlayers n s = inr (take n (pending s), s') ∧
        wf_stream s' ∧ pending s' = drop n (pending s) ∧
        players_ s' = players_ s.
Proof.
  induction n as [|n IH]; intros s Hwf Hn.
  - exists s. by rewrite take_0, drop_0.
  - destruct (pending s) as [|p todo] eqn:Hp; [simpl in Hn; lia|].
    destruct (nextPlayer_pending s p todo Hwf Hp) as (s1 & Hnext & Hwf1 & Hp1 & Hpl1).
    destruct (IH s1 Hwf1) as (s' & Hrest & Hwf' & Hp' & Hpl').
    { rewrite Hp1. simpl in Hn. lia. }
    exists s'. cbn [nextPlayers]. rewrite Hnext. cbn [bind]. rewrite Hrest. cbn [bind ret].
    rewrite Hp1 in Hp' |- *. split; [done|]. split; [done|]. split; [done|]. congruence.
Qed.

Lemma nextPlayers_throws n : ∀ s,
  wf_stream s → length (pending s) < n →
  nextPlayers n s = inl (runtime_error "No more players to fetch").
Proof.
  induction n as [|n IH]; intros s Hwf Hn; [lia|].
  cbn [nextPlayers].
  destruct (pending s) as [|p todo] eqn:Hp.
  - unfold pending in Hp. apply (f_equal length) in Hp.
    rewrite length_drop in Hp. simpl in Hp.
    unfold nextPlayer.
    destruct (Nat.leb_spec (length (players_ s)) (index_ s)); [done|lia].
  - destruct (nextPlayer_pending s p todo Hwf Hp) as (s1 & Hnext & Hwf1 & Hp1 & _).
    rewrite Hnext. cbn [bind]. rewrite (IH s1 Hwf1); [done|].
    rewrite Hp1. simpl in Hn. lia.
Qed.

(** On a stream with players left, [nextPlayer] returns the player at the
    read position, moves the read position one forward, leaves the vector
    as it is, and [remaining] drops by exactly one. *)
Theorem nextPlayer_advances (s : VectorPlayerStream) :
  wf_stream s → (0 < remaining s)%Z →
  ∃ p s',
    nextPlayer s = inr (p, s') ∧
    players_ s !! index_ s = Some p ∧
    players_ s' = players_ s ∧ index_ s' = S (index_ s) ∧
    wf_stream s' ∧ remaining s' = (remaining s - 1)%Z.
Proof.
  intros Hwf Hrem.
  assert (pending s ≠ []) as Hne.
  { apply remaining_pos_pending; [done|]. by apply Z.ltb_lt. }
  destruct (pending s) as [|p todo] eqn:Hp; [done|].
  destruct (nextPlayer_pending s p todo Hwf Hp) as (s' & Hnext & Hwf' & Hp' & Hpl).
  exists p, s'. split; [done|].
  assert (players_ s !! index_ s = Some p) as Hlook.
  { unfold pending in Hp. rewrite <-(Nat.add_0_r (index_ s)), <-lookup_drop.
    by rewrite Hp. }
  split; [done|]. split; [done|]. split.
  { revert Hnext. unfold nextPlayer. rewrite Hlook.
    destruct (_ <=? _); [done|]. intros ?. by simplify_eq/=. }
  split; [done|].
  rewrite (remaining_wf s Hwf), (remaining_wf s' Hwf'), Hp, Hp'. simpl length. lia.
Qed.

(** A stream gives back the vector it was built from: [n] successive calls
    of [nextPlayer] on a fresh stream return the first [n] players of the
    vector in order and leave [size - n] players remaining; one call more
    than the vector holds players throws the exhaustion error. *)
Theorem stream_reads_vector (players : list Player) (n : nat) :
  (Z.of_nat (length players) < size_t_modulus)%Z →
  (n ≤ length players →
     ∃ s', nextPlayers n (VectorPlayerStream_new players) = inr (take n players, s') ∧
           remaining s' = Z.of_nat (length players - n)) ∧
  (length players < n →
     nextPlayers n (VectorPlayerStream_new players) =
       inl (runtime_error "No more players to fetch")).
Proof.
  intros Hsz. pose proof (wf_stream_new players Hsz) as Hwf. split.
  - intros Hn.
    destruct (nextPlayers_pending n (VectorPlayerStream_new players) Hwf Hn)
      as (s' & Hrun & Hwf' & Hp' & _).
    exists s'. split; [done|].
    rewrite (remaining_wf s' Hwf'), Hp'. by rewrite length_drop.
  - intros Hn. by apply nextPlayers_throws.
Qed.

(** * More about the cutoffs *)

Lemma filter_all_id {A} (P : A → Prop) `{∀ x, Decision (P x)} (l : list A) :
  (∀ x, x ∈ l → P x) → filter P l = l.
Proof.
  induction l as [|a l IH]; intros Hall; [done|].
  rewrite filter_cons, decide_True by (apply Hall; left).
  rewrite IH; [done|]. intros x Hx. apply Hall. by right.
Qed.

Lemma filter_none_nil {A} (P : A → Prop) `{∀ x, Decision (P x)} (l : list A) :
  (∀ x, x ∈ l → ¬ P x) → filter P l = [].
Proof.
  induction l as [|a l IH]; intros Hall; [done|].
  rewrite filter_cons, decide_False by (apply Hall; left).
  apply IH. intros x Hx. apply Hall. by right.
Qed.

(** The cutoff of a vector is one level of it: the one at position
    [size - k] when the levels are put in ascending order. *)
Lemma is_cutoff_sorted_levels k l v :
  1 ≤ k → is_cutoff k l v → sorted_levels l !! (length l - k) = Some v.
Proof.
  intros Hk (tp & Htop & (b & Hb & Hbv) & Hmin).
  assert (sort_by_level tp ≡ₚ tp) as Hperm by apply merge_sort_Permutation.
  pose proof (is_top_Permutation k l tp _ Hperm Htop) as Htop'.
  pose proof (is_top_levels k l _ Htop' (sort_by_level_is_sorted tp)) as Hlev.
  rewrite <-(Nat.add_0_r (length l - k)), <-lookup_drop, <-Hlev.
  destruct (sort_by_level tp) as [|a t] eqn:Hs.
  { destruct Htop' as [Hlen _]. simpl in Hlen. lia. }
  simpl. f_equal.
  pose proof (sort_by_level_is_sorted tp) as Hsorted. rewrite Hs in Hsorted.
  apply is_sorted_cons in Hsorted as [Hfirst _].
  assert (a ∈ tp) as Ha by (rewrite <-Hperm; left).
  assert (b ∈ a :: t) as Hb' by by rewrite Hperm.
  pose proof (Hmin a Ha).
  apply elem_of_cons in Hb' as [->|Hb']; [done|].
  pose proof (Hfirst b Hb'). lia.
Qed.

(** Reading more players never lowers the cutoff. *)
Lemma is_cutoff_mono k l extra v1 v2 :
  1 ≤ k → is_cutoff k l v1 → is_cutoff k (l ++ extra) v2 → (v1 ≤ v2)%N.
Proof.
  intros Hk (tp1 & [Hlen1 (rest1 & Hperm1 & _)] & _ & Hmin1)
            (tp2 & [Hlen2 (rest2 & Hperm2 & Hdom2)] & (b2 & Hb2 & Hv2) & _).
  destruct (N.le_gt_cases v1 v2) as [|Hlt]; [done|exfalso].
  set (P := λ x : Player, (v2 < level_ x)%N).
  assert (filter P tp1 = tp1) as Hf1.
  { apply filter_all_id. intros x Hx. unfold P. pose proof (Hmin1 x Hx). lia. }
  assert (filter P rest2 = []) as Hf2.
  { apply filter_none_nil. intros x Hx. unfold P.
    pose proof (Hdom2 x b2 Hx Hb2). lia. }
  assert (length (filter P tp2) < k) as Hf3.
  { rewrite <-Hlen2. apply (length_filter_lt P tp2 b2); [done|]. unfold P. lia. }
  assert (filter P (tp1 ++ rest1 ++ extra) ≡ₚ filter P (tp2 ++ rest2)) as Hperm.
  { apply filter_Permutation. by rewrite app_assoc, <-Hperm1, Hperm2. }
  apply Permutation_length in Hperm.
  rewrite !filter_app, Hf1, Hf2, !length_app in Hperm. simpl in Hperm. lia.
Qed.

Section Cutoffs.
Context `{StdAlgorithms}.

(** The top subset and the cutoffs of one call, side by side. *)
Lemma rankIncoming_full_spec fuel s R :
  1 ≤ R → wf_stream s → R ≤ length (pending s) → length (pending s) + R < fuel →
  ∃ res s',
    rankIncoming fuel s R = inr (res, s') ∧
    is_sorted (top_ res) ∧
    is_top R (pending s) (top_ res) ∧
    (∀ k, is_Some (cutoffs_ res !! k) ↔
       (1 ≤ k ≤ length (pending s) ∧ k `mod` R = 0) ∨ k = length (pending s)) ∧
    (∀ k v, cutoffs_ res !! k = Some v → is_cutoff R (take k (pending s)) v).
Proof.
  intros HR Hwf Hn Hfuel.
  assert (pending s ≠ []) as Hne by (destruct (pending s); simpl in *; [lia|done]).
  destruct (rankIncoming_top_spec fuel s R HR Hwf Hne Hfuel)
    as (res & s' & Hrun & _ & Hsorted & Htop).
  destruct (rankIncoming_cutoffs_spec fuel s R HR Hwf Hne Hfuel)
    as (res' & s'' & Hrun' & Hkeys & Hvals).
  rewrite Hrun in Hrun'. simplify_eq.
  exists res', s''. split; [done|]. split; [done|].
  rewrite Nat.min_l in Htop by done. auto.
Qed.

Lemma cutoff_key_range fuel s R res s' k v :
  1 ≤ R → wf_stream s → R ≤ length (pending s) → length (pending s) + R < fuel →
  rankIncoming fuel s R = inr (res, s') → cutoffs_ res !! k = Some v →
  R ≤ k ≤ length (pending s).
Proof.
  intros HR Hwf Hn Hfuel Hrun Hk.
  destruct (rankIncoming_full_spec fuel s R HR Hwf Hn Hfuel)
    as (res' & s'' & Hrun' & _ & _ & Hkeys & _).
  rewrite Hrun in Hrun'. simplify_eq.
  assert (is_Some (cutoffs_ res' !! k)) as [[Hr Hm]| ->]%Hkeys by eauto; [|lia].
  split; [|lia]. apply (multiple_ge R HR k); [lia|done].
Qed.

End Cutoffs.

(** When at least [R] players are read, every cutoff that [rankIncoming]
    records at a count [k] is the [R]-th highest level of the first [k]
    players read: the level at position [k - R] when the levels of those
    players are put in ascending order. *)
Theorem rankIncoming_cutoff_values `{StdAlgorithms} (fuel : nat)
    (s : VectorPlayerStream) (R : nat) :
  1 ≤ R → wf_stream s → R ≤ length (pending s) → length (pending s) + R < fuel →
  ∃ res s',
    rankIncoming fuel s R = inr (res, s') ∧
    ∀ k v, cutoffs_ res !! k = Some v →
      sorted_levels (take k (pending s)) !! (k - R) = Some v.
Proof.
  intros HR Hwf Hn Hfuel.
  destruct (rankIncoming_full_spec fuel s R HR Hwf Hn Hfuel)
    as (res & s' & Hrun & _ & _ & _ & Hvals).
  exists res, s'. split; [done|]. intros k v Hk.
  pose proof (cutoff_key_range fuel s R res s' k v HR Hwf Hn Hfuel Hrun Hk) as Hrange.
  pose proof (is_cutoff_sorted_levels R _ v HR (Hvals k v Hk)) as Hlook.
  by rewrite length_take_le in Hlook by lia.
Qed.

(** When at least [R] players are read, the cutoffs that [rankIncoming]
    records never decrease as the count grows. *)
Theorem rankIncoming_cutoffs_monotone `{StdAlgorithms} (fuel : nat)
    (s : VectorPlayerStream) (R : nat) :
  1 ≤ R → wf_stream s → R ≤ length (pending s) → length (pending s) + R < fuel →
  ∃ res s',
    rankIncoming fuel s R = inr (res, s') ∧
    ∀ k1 k2 v1 v2, k1 ≤ k2 →
      cutoffs_ res !! k1 = Some v1 → cutoffs_ res !! k2 = Some v2 → (v1 ≤ v2)%N.
Proof.
  intros HR Hwf Hn Hfuel.
  destruct (rankIncoming_full_spec fuel s R HR Hwf Hn Hfuel)
    as (res & s' & Hrun & _ & _ & _ & Hvals).
  exists res, s'. split; [done|]. intros k1 k2 v1 v2 Hle Hk1 Hk2.
  apply (is_cutoff_mono R (take k1 (pending s)) (drop k1 (take k2 (pending s))));
    [done|by apply Hvals|].
  replace (take k1 (pending s)) with (take k1 (take k2 (pending s)))
    by (rewrite take_take; f_equal; lia).
  rewrite take_drop. by apply Hvals.
Qed.

(** When at least [R] players are read, the cutoff recorded for the final
    count is the level of the first player of the top subset, every player
    of the top subset has at least that level, and every player read and
    left out has at most that level. *)
Theorem rankIncoming_final_cutoff `{StdAlgorithms} (fuel : nat)
    (s : VectorPlayerStream) (R : nat) :
  1 ≤ R → wf_stream s → R ≤ length (pending s) → length (pending s) + R < fuel →
  ∃ res s' first rest,
    rankIncoming fuel s R = inr (res, s') ∧
    head (top_ res) = Some first ∧
    cutoffs_ res !! length (pending s) = Some (level_ first) ∧
    pending s ≡ₚ top_ res ++ rest ∧
    (∀ b, b ∈ top_ res → (level_ first ≤ level_ b)%N) ∧
    (∀ a, a ∈ rest → (level_ a ≤ level_ first)%N).
Proof.
  intros HR Hwf Hn Hfuel.
  destruct (rankIncoming_full_spec fuel s R HR Hwf Hn Hfuel)
    as (res & s' & Hrun & Hsorted & Htop & Hkeys & Hvals).
  destruct (proj2 (Hkeys (length (pending s))) ltac:(by right)) as [v Hv].
  pose proof (is_cutoff_sorted_levels R _ v HR (Hvals _ v Hv)) as Hlook.
  rewrite take_ge in Hlook by done.
  pose proof (is_top_levels R _ _ Htop Hsorted) as Hlev.
  destruct Htop as [Hlen (rest & Hperm & Hdom)].
  destruct (top_ res) as [|first t] eqn:Htp; [simpl in Hlen; lia|].
  exists res, s', first, rest. rewrite Htp.
  split; [done|]. split; [done|].
  assert (level_ first = v) as <-.
  { rewrite <-(Nat.add_0_r (length (pending s) - R)), <-lookup_drop, <-Hlev in Hlook.
    simpl in Hlook. by simplify_eq. }
  split; [done|]. split; [done|]. split.
  - intros b [->|Hb]%elem_of_cons; [done|].
    apply is_sorted_cons in Hsorted as [Hfirst _]. by apply Hfirst.
  - intros a Ha. apply Hdom; [done|by left].
Qed.

(** * More about [rankIncoming] *)

Lemma replaceMin_length fuel heap target heap' :
  replaceMin fuel heap target = Some heap' → length heap' = length heap.
Proof.
  destruct heap as [|x heap]; simpl; [by intros [= <-]|].
  intros Hp. by rewrite (percolate_length _ _ _ _ _ Hp).
Qed.

Section RankIncomingMore.
Context `{StdAlgorithms}.

Lemma rankIncoming_body_players_ fuel R st st' :
  rankIncoming_body fuel R st = inr st' →
  players_ (ls_stream st') = players_ (ls_stream st).
Proof.
  rewrite rankIncoming_body_unfold.
  destruct (nextPlayer (ls_stream st)) as [e|[p s1]] eqn:Hnext; [done|]. cbn [bind].
  destruct (update_top fuel R (ls_topPlayers st) p) as [e|tp]; [done|]. cbn [bind].
  destruct (record_cutoff R (S (ls_playerCount st)) tp (ls_cutoffs st)) as [e|cut];
    [done|]. cbn [bind].
  intros ?. simplify_eq/=. by eapply nextPlayer_players_.
Qed.

(** When the loop ends in a state, the stream of that state has no player
    left and still holds the vector it started with. *)
Lemma rankIncoming_loop_stream fuel R : ∀ st st',
  wf_stream (ls_stream st) → rankIncoming_loop fuel R st = inr st' →
  wf_stream (ls_stream st') ∧ pending (ls_stream st') = [] ∧
  players_ (ls_stream st') = players_ (ls_stream st).
Proof.
  assert (∀ st, wf_stream (ls_stream st) →
            (0 <? remaining (ls_stream st))%Z = false →
            pending (ls_stream st) = []) as Hdone.
  { intros st Hwf Hrem. destruct (pending (ls_stream st)) eqn:Hp; [done|].
    assert ((0 <? remaining (ls_stream st))%Z = true); [|congruence].
    apply remaining_pos_pending; [done|]. by rewrite Hp. }
  induction fuel as [|fuel IH]; intros st st' Hwf; simpl.
  - destruct (0 <? remaining (ls_stream st))%Z eqn:Hrem; [done|].
    intros ?; simplify_eq/=. auto.
  - destruct (0 <? remaining (ls_stream st))%Z eqn:Hrem;
      [|intros ?; simplify_eq/=; auto].
    destruct (rankIncoming_body_no_throw fuel R st ""%string Hwf Hrem) as [_ Hwf1].
    destruct (rankIncoming_body fuel R st) as [e|st1] eqn:Hbody; [done|]. cbn [bind].
    intros Hloop. destruct (IH st1 st' (Hwf1 st1 eq_refl) Hloop) as (? & ? & Hpl).
    split; [done|]. split; [done|].
    rewrite Hpl. by eapply rankIncoming_body_players_.
Qed.

Lemma rankIncoming_finish_stream st res s' :
  rankIncoming_finish st = inr (res, s') → s' = ls_stream st.
Proof.
  unfold rankIncoming_finish. case_decide.
  - destruct (ls_topPlayers st); [done|]. cbn. intros ?; by simplify_eq.
  - cbn. intros ?; by simplify_eq.
Qed.

Lemma update_top_length fuel R tp p tp' :
  length tp ≤ R → update_top fuel R tp p = inr tp' →
  length tp ≤ length tp' ≤ R.
Proof.
  intros Hlen. unfold update_top.
  destruct (Nat.ltb_spec (length tp) R).
  - assert (length (tp ++ [p]) = S (length tp)) as Happ
      by (rewrite length_app; simpl; lia).
    destruct (_ =? _); intros ?; simplify_eq/=.
    + rewrite make_heap_Permutation, Happ. lia.
    + rewrite Happ. lia.
  - destruct tp as [|f heap]; [done|]. cbn [front bind ret].
    destruct (Player_gt p f).
    + destruct (replaceMin fuel (f :: heap) p) as [heap'|] eqn:Hrep; [|done].
      apply replaceMin_length in Hrep. intros ?; simplify_eq/=. lia.
    + intros ?; simplify_eq/=. lia.
Qed.

End RankIncomingMore.

(** [rankIncoming] reads its stream to the end and leaves the vector of
    the stream as it was: afterwards the read position is the size of the
    vector, [remaining] is zero, and a further [nextPlayer] throws. *)
Theorem rankIncoming_drains_stream `{StdAlgorithms} (fuel : nat)
    (s : VectorPlayerStream) (R : nat) :
  1 ≤ R → wf_stream s → pending s ≠ [] → length (pending s) + R < fuel →
  ∃ res s',
    rankIncoming fuel s R = inr (res, s') ∧
    players_ s' = players_ s ∧ index_ s' = length (players_ s) ∧
    remaining s' = 0%Z ∧
    nextPlayer s' = inl (runtime_error "No more players to fetch").
Proof.
  intros HR Hwf Hne Hfuel.
  destruct (rankIncoming_top_spec fuel s R HR Hwf Hne Hfuel) as (res & s' & Hrun & _).
  exists res, s'. split; [done|].
  rewrite rankIncoming_unfold in Hrun.
  destruct (rankIncoming_loop fuel R _) as [e|st] eqn:Hloop; [done|]. cbn [bind] in Hrun.
  apply rankIncoming_finish_stream in Hrun as ->.
  destruct (rankIncoming_loop_stream fuel R
              {| ls_stream := s; ls_topPlayers := []; ls_cutoffs := ∅;
                 ls_playerCount := 0 |} st Hwf Hloop) as (Hwf' & Hp' & Hpl).
  simpl in Hpl. split; [done|].
  assert (index_ (ls_stream st) = length (players_ (ls_stream st))) as Hidx.
  { destruct Hwf' as [Hle _]. apply (f_equal length) in Hp'.
    unfold pending in Hp'. rewrite length_drop in Hp'. simpl in Hp'. lia. }
  split; [by rewrite Hidx, Hpl|].
  split; [by rewrite (remaining_wf _ Hwf'), Hp'|].
  unfold nextPlayer. rewrite Hidx.
  by destruct (Nat.leb_spec (length (players_ (ls_stream st)))
                 (length (players_ (ls_stream st)))); [|lia].
Qed.

(** With a reporting interval of zero [rankIncoming] never returns a
    result: the leader buffer is never filled, and the call reads the front
    of the empty buffer (in the first iteration when the stream holds
    players, after the loop when it holds none) before it could divide by
    zero. *)
Theorem rankIncoming_zero_interval `{StdAlgorithms} (fuel : nat)
    (s : VectorPlayerStream) :
  wf_stream s → 1 ≤ fuel →
  rankIncoming fuel s 0 = inl (undefined_behaviour "front() of an empty vector").
Proof.
  intros Hwf Hfuel. destruct fuel as [|fuel]; [lia|].
  unfold rankIncoming. simpl.
  destruct (pending s) as [|p todo] eqn:Hp.
  - assert ((0 <? remaining s)%Z = false) as ->; [|done].
    apply not_true_is_false. rewrite remaining_pos_pending by done.
    rewrite Hp. by intros Hne.
  - assert ((0 <? remaining s)%Z = true) as ->.
    { rewrite remaining_pos_pending by done. by rewrite Hp. }
    destruct (nextPlayer_pending _ _ _ Hwf Hp) as (s' & Hnext & _).
    rewrite rankIncoming_body_unfold. simpl. by rewrite Hnext.
Qed.

(** When the stream holds at most [R] players, no player is left out: the
    top subset is the players read, sorted ascending by level. *)
Theorem rankIncoming_returns_all_when_few `{StdAlgorithms} (fuel : nat)
    (s : VectorPlayerStream) (R : nat) :
  wf_stream s → pending s ≠ [] → length (pending s) ≤ R →
  length (pending s) + R < fuel →
  ∃ res s',
    rankIncoming fuel s R = inr (res, s') ∧
    top_ res ≡ₚ pending s ∧ is_sorted (top_ res).
Proof.
  intros Hwf Hne Hn Hfuel.
  assert (1 ≤ R) as HR by (destruct (pending s); simpl in *; [done|lia]).
  destruct (rankIncoming_top_spec fuel s R HR Hwf Hne Hfuel)
    as (res & s' & Hrun & _ & Hsorted & [Hlen (rest & Hperm & _)]).
  exists res, s'. split; [done|]. split; [|done].
  rewrite Nat.min_r in Hlen by done.
  pose proof (Permutation_length Hperm) as Hl. rewrite length_app, Hlen in Hl.
  destruct rest; [|simpl in Hl; lia]. by rewrite app_nil_r in Hperm.
Qed.

(** One iteration of the loop of [rankIncoming], started with players left
    in the stream and at most [R] players in the leader buffer, returns: it
    reads one player, counts it, never shrinks the leader buffer and never
    lets it grow beyond the reporting interval. *)
Theorem rankIncoming_body_buffer_bounded `{StdAlgorithms} (fuel R : nat)
    (st : loop_state) (p : Player) (todo : list Player) :
  1 ≤ R → R ≤ fuel →
  wf_stream (ls_stream st) → pending (ls_stream st) = p :: todo →
  length (ls_topPlayers st) ≤ R →
  ∃ st',
    rankIncoming_body fuel R st = inr st' ∧
    pending (ls_stream st') = todo ∧
    length (ls_topPlayers st) ≤ length (ls_topPlayers st') ≤ R ∧
    ls_playerCount st' = S (ls_playerCount st).
Proof.
  intros HR Hfuel Hwf Hp Hlen.
  destruct (nextPlayer_pending _ _ _ Hwf Hp) as (s1 & Hnext & _ & Hp1 & _).
  assert (∃ tp, update_top fuel R (ls_topPlayers st) p = inr tp ∧ tp ≠ [])
    as (tp & Hup & Hne).
  { unfold update_top.
    destruct (Nat.ltb_spec (length (ls_topPlayers st)) R).
    - destruct (_ =? _).
      + eexists. split; [done|]. intros Hnil.
        apply (f_equal length) in Hnil.
        rewrite make_heap_Permutation, length_app in Hnil. simpl in Hnil. lia.
      + eexists. split; [done|]. by destruct (ls_topPlayers st).
    - destruct (ls_topPlayers st) as [|f heap] eqn:Htp; [simpl in *; lia|].
      cbn [front bind ret]. destruct (Player_gt p f).
      + destruct (replaceMin_total (f :: heap) p) as (heap' & Hlen' & Hrep).
        rewrite Hrep by lia. eexists. split; [done|].
        intros ->. simpl in Hlen'. lia.
      + eexists. split; [done|]. done. }
  rewrite rankIncoming_body_unfold, Hnext. cbn [bind]. rewrite Hup. cbn [bind].
  unfold record_cutoff. destruct (Nat.eqb_spec R 0) as [?|_]; [lia|].
  destruct tp as [|f heap] eqn:Htp; [done|]. rewrite <-Htp in *.
  assert (∃ cut, (if S (ls_playerCount st) `mod` R =? 0
                  then do f0 <- front tp;
                       ret (<[S (ls_playerCount st) := level_ f0]> (ls_cutoffs st))
                  else ret (ls_cutoffs st)) = inr cut) as [cut ->].
  { destruct (_ =? _); [|by eexists]. rewrite Htp. by eexists. }
  cbn [bind ret]. eexists. split; [done|]. simpl.
  split; [done|]. split; [|done]. by eapply update_top_length.
Qed.

(** * More about the offline selectors *)

(** [heapRank] splits the caller's vector: the players returned and the
    players left in the vector are together the players given, the vector
    left is a max-heap, and none of the players left in it has a higher
    level than a player returned. *)
Theorem heapRank_partitions `{StdAlgorithms} (C : list Player) :
  ∃ rh ph,
    heapRank C = inr (rh, ph) ∧
    top_ rh ++ ph ≡ₚ C ∧ is_max_heap ph ∧ dominates (top_ rh) ph.
Proof.
  unfold heapRank.
  pose proof (make_heap_Permutation less C) as Hperm.
  pose proof (make_heap_is_heap less C) as Hheap.
  assert (length (make_heap less C) = length C) as Hlen by by rewrite Hperm.
  pose proof (Nat.Div0.div_le_upper_bound (length C) 10 (length C) ltac:(lia)) as Hdiv.
  destruct (heapRank_loop_spec (length C / 10) (make_heap less C) [] Hheap)
    as (players' & extracted & Hloop & _ & Hperm' & Hdom & Hheap'); [lia|].
  rewrite Hlen, Hloop. cbn [bind ret app].
  eexists _, players'. split; [done|]. simpl.
  split; [by rewrite sort_Permutation, <-Hperm', Hperm|]. split; [done|].
  intros a b Ha Hb. rewrite sort_Permutation in Hb. by apply Hdom.
Qed.

(** The players [quickSelectRank] returns are the players it leaves at the
    end of the caller's vector, from position [N - floor(N / 10)] on, and
    none of the players before that position has a higher level than a
    player returned. *)
Theorem quickSelectRank_top_is_tail `{StdAlgorithms} (C : list Player) :
  let k := length C - length C / 10 in
  top_ (quickSelectRank C).1 ≡ₚ drop k (quickSelectRank C).2 ∧
  dominates (top_ (quickSelectRank C).1) (take k (quickSelectRank C).2).
Proof.
  intros k. unfold quickSelectRank. fold k. simpl.
  pose proof (Nat.Div0.div_le_upper_bound (length C) 10 (length C) ltac:(lia)) as Hdiv.
  assert (k ≤ length C) as Hk by (unfold k; lia).
  pose proof (nth_element_is_partitioned k C Hk) as Hpart.
  split; [apply sort_Permutation|].
  intros a b [i Hi]%list_elem_of_lookup Hb. rewrite sort_Permutation in Hb.
  apply list_elem_of_lookup in Hb as [j Hj].
  apply Player_lt_false.
  pose proof (lookup_lt_Some _ _ _ Hi) as Hlt. rewrite length_take in Hlt.
  rewrite lookup_take_lt in Hi by lia. rewrite lookup_drop in Hj.
  apply (Hpart i (k + j)); [lia|lia|done..].
Qed.

(** * More about [replaceMin] *)

(** Whatever the range holds, a min-heap or not, [replaceMin] neither
    loses nor duplicates a player: the range afterwards holds the
    replacement and the players that were behind the first position. *)
Theorem replaceMin_keeps_players (first : Player) (range : list Player)
    (target : Player) :
  ∃ range',
    (∀ fuel, length (first :: range) ≤ fuel →
       replaceMin fuel (first :: range) target = Some range') ∧
    range' ≡ₚ target :: range.
Proof.
  destruct (replaceMin_total (first :: range) target) as (range' & _ & Hfuel).
  exists range'. split; [done|].
  specialize (Hfuel _ (Nat.le_refl _)). unfold replaceMin in Hfuel.
  apply (percolate_Permutation _ _ _ _ _ Hfuel).
Qed.

(** After [replaceMin] on a min-heap the first position holds a player of
    the lowest level among the replacement and the players that were
    behind the root. *)
Theorem replaceMin_front_is_minimum (root : Player) (heap : list Player)
    (target : Player) :
  is_min_heap (root :: heap) →
  ∃ r rest,
    (∀ fuel, length (root :: heap) ≤ fuel →
       replaceMin fuel (root :: heap) target = Some (r :: rest)) ∧
    r ∈ target :: heap ∧
    ∀ b, b ∈ target :: heap → (level_ r ≤ level_ b)%N.
Proof.
  intros Hh.
  destruct (replaceMin_total (root :: heap) target) as (heap' & Hlen & Hfuel).
  destruct (replaceMin_spec _ root heap target heap' Hh (Hfuel _ (Nat.le_refl _)))
    as [Hheap' Hperm].
  destruct heap' as [|r rest]; [done|].
  exists r, rest. split; [done|]. split.
  - rewrite <-Hperm. by left.
  - intros b Hb. apply (min_heap_root r rest b Hheap'). by rewrite Hperm.
Qed.

(** When the replacement is no greater than the players at the two
    positions below the root, [replaceMin] leaves the loop in its first
    iteration: only the first position of the range is rewritten. *)
Theorem replaceMin_stops_at_root (first : Player) (range : list Player)
    (target : Player) (fuel : nat) :
  1 ≤ fuel →
  (∀ j y, j < 2 → range !! j = Some y → (level_ target ≤ level_ y)%N) →
  replaceMin fuel (first :: range) target = Some (target :: range).
Proof.
  intros Hfuel Hchildren. destruct fuel as [|fuel]; [lia|].
  unfold replaceMin. cbn [insert list_insert].
  change (<[0:=target]> (first :: range)) with (target :: range).
  rewrite percolate_S. cbv zeta.
  destruct (smallest_of_spec (target :: range) 0 target eq_refl)
    as [[-> _]|(Hc & _ & y & Hy & Hlt & _)]; [done|].
  exfalso.
  set (s := smallest_of (target :: range) (length (target :: range)) 0) in *.
  clearbody s. unfold is_child in Hc.
  destruct s as [|s]; [lia|]. simpl in Hy.
  pose proof (Hchildren s y ltac:(lia) Hy). lia.
Qed.

(** * The number of cutoffs *)

Lemma elem_of_multiples_upto R n k :
  1 ≤ R → k ∈ multiples_upto R n ↔ 1 ≤ k ≤ n ∧ k `mod` R = 0.
Proof.
  intros HR. unfold multiples_upto.
  rewrite elem_of_list_to_set, list_elem_of_fmap. split.
  - intros (i & -> & [Hi1 Hi2]%elem_of_seq).
    assert (i ≤ n / R) as Hi by lia.
    pose proof (Nat.Div0.mul_div_le n R).
    split; [nia|]. apply Nat.Div0.mod_mul.
  - intros [[Hk1 Hk2] Hm]. apply Nat.Div0.mod_divides in Hm as [c ->].
    exists c. split; [lia|]. apply elem_of_seq.
    assert (c ≤ n / R) by (apply Nat.div_le_lower_bound; lia).
    destruct c; lia.
Qed.

Lemma size_multiples_upto R n : 1 ≤ R → size (multiples_upto R n) = n / R.
Proof.
  intros HR. unfold multiples_upto. rewrite size_list_to_set.
  - by rewrite length_fmap, length_seq.
  - apply NoDup_fmap_2; [intros i j Hij; nia|apply NoDup_seq].
Qed.

(** [rankIncoming] records [floor(n / R)] cutoffs for the multiples of [R]
    reached, and one more for the final count [n] unless [n] is itself a
    multiple of [R]. *)
Theorem rankIncoming_cutoffs_count `{StdAlgorithms} (fuel : nat)
    (s : VectorPlayerStream) (R : nat) :
  1 ≤ R → wf_stream s → pending s ≠ [] → length (pending s) + R < fuel →
  ∃ res s',
    rankIncoming fuel s R = inr (res, s') ∧
    size (cutoffs_ res) =
      length (pending s) / R + (if length (pending s) `mod` R =? 0 then 0 else 1).
Proof.
  intros HR Hwf Hne Hfuel.
  destruct (rankIncoming_cutoffs_spec fuel s R HR Hwf Hne Hfuel)
    as (res & s' & Hrun & Hkeys & _).
  exists res, s'. split; [done|].
  set (n := length (pending s)) in *.
  assert (1 ≤ n) as Hn by (unfold n; destruct (pending s); simpl; [done|lia]).
  assert (dom (cutoffs_ res) = multiples_upto R n ∪ {[ n ]}) as Hdom.
  { apply set_eq. intros k.
    rewrite elem_of_dom, Hkeys, elem_of_union, elem_of_singleton.
    by rewrite elem_of_multiples_upto. }
  rewrite <-size_dom, Hdom.
  destruct (Nat.eqb_spec (n `mod` R) 0) as [Hm|Hm].
  - assert (multiples_upto R n ∪ {[ n ]} = multiples_upto R n) as ->.
    { apply set_eq. intros k. rewrite elem_of_union, elem_of_singleton.
      split; [intros [?| ->]; [done|]|auto].
      apply elem_of_multiples_upto; [done|lia]. }
    rewrite size_multiples_upto by done. lia.
  - rewrite size_union.
    + by rewrite size_multiples_upto, size_singleton.
    + intros k Hk [= ->]%elem_of_singleton.
      apply elem_of_multiples_upto in Hk; [|done]. lia.
Qed.

(** * Agreement of the selectors *)

(** Among the players of a vector without tied levels, the level tells the
    player. *)
Lemma level_determines_player C x y :
  NoDup (levels C) → x ∈ C → y ∈ C → level_ x = level_ y → x = y.
Proof.
  unfold levels. induction C as [|c C IH]; intros Hnd Hx Hy Hl.
  { by apply elem_of_nil in Hx. }
  rewrite fmap_cons in Hnd. apply NoDup_cons in Hnd as [Hc Hnd].
  apply elem_of_cons in Hx as [->|Hx]; apply elem_of_cons in Hy as [->|Hy].
  - done.
  - exfalso. apply Hc. rewrite Hl. by apply list_elem_of_fmap_2.
  - exfalso. apply Hc. rewrite <-Hl. by apply list_elem_of_fmap_2.
  - by apply IH.
Qed.

Lemma levels_determine_players C l1 l2 :
  NoDup (levels C) → (∀ x, x ∈ l1 → x ∈ C) → (∀ x, x ∈ l2 → x ∈ C) →
  levels l1 = levels l2 → l1 = l2.
Proof.
  intros Hnd. revert l2. induction l1 as [|a l1 IH]; intros [|b l2] H1 H2 Hl;
    try done.
  unfold levels in Hl. simpl in Hl. injection Hl as Hab Hl.
  f_equal.
  - apply (level_determines_player C); [done|apply H1; left|apply H2; left|done].
  - apply IH; [|intros x Hx; apply H2; by right|done].
    intros x Hx. apply H1. by right.
Qed.

Lemma is_top_elem_of k C tp x : is_top k C tp → x ∈ tp → x ∈ C.
Proof.
  intros [_ (rest & Hperm & _)] Hx. rewrite Hperm. apply elem_of_app. by left.
Qed.

(** On a collection without tied levels the two offline selectors return
    the same top subset, player for player, also when they run on
    different conforming libraries. *)
Theorem offline_selectors_equal_without_ties (A B : StdAlgorithms) (C : list Player) :
  NoDup (levels C) →
  ∃ rh ph,
    @heapRank A C = inr (rh, ph) ∧ top_ rh = top_ (@quickSelectRank B C).1.
Proof.
  intros Hnd.
  destruct (@heapRank_spec A C) as (th & ph & Hh & Hsh & Htoph & _).
  destruct (@quickSelectRank_spec B C) as (tq & pq & Hq & Hsq & Htopq & _).
  eexists _, ph. split; [exact Hh|]. rewrite Hq. simpl.
  apply (levels_determine_players C); [done|..].
  - intros x. by apply (is_top_elem_of _ _ _ _ Htoph).
  - intros x. by apply (is_top_elem_of _ _ _ _ Htopq).
  - by rewrite (is_top_levels _ _ _ Htoph Hsh), (is_top_levels _ _ _ Htopq Hsq).
Qed.

(** Online and offline ranking agree: on a collection of at least 10
    players, [rankIncoming] over a stream of the collection with a
    reporting interval of [floor(N / 10)] returns a top subset with the same
    levels as the one [heapRank] returns, and the same players when no levels
    are tied. *)
Theorem rankIncoming_agrees_with_heapRank `{StdAlgorithms} (fuel : nat)
    (C : list Player) :
  (Z.of_nat (length C) < size_t_modulus)%Z → 10 ≤ length C →
  length C + length C / 10 < fuel →
  ∃ res s' rh ph,
    rankIncoming fuel (VectorPlayerStream_new C) (length C / 10) = inr (res, s') ∧
    heapRank C = inr (rh, ph) ∧
    levels (top_ res) = levels (top_ rh) ∧
    (NoDup (levels C) → top_ res = top_ rh).
Proof.
  intros Hsz Hlen Hfuel.
  pose proof (wf_stream_new C Hsz) as Hwf.
  assert (1 ≤ length C / 10) as HR by (apply Nat.div_le_lower_bound; lia).
  pose proof (Nat.Div0.div_le_upper_bound (length C) 10 (length C) ltac:(lia)) as Hdiv.
  destruct (rankIncoming_top_spec fuel (VectorPlayerStream_new C) (length C / 10)
              HR Hwf) as (res & s' & Hrun & _ & Hs & Htop).
  { destruct C; simpl in *; [lia|done]. }
  { done. }
  change (pending (VectorPlayerStream_new C)) with C in Htop.
  rewrite Nat.min_l in Htop by done.
  destruct (heapRank_spec C) as (th & ph & Hh & Hsh & Htoph & _).
  eexists res, s', _, ph. split; [done|]. split; [exact Hh|]. simpl.
  assert (levels (top_ res) = levels th) as Hlev
    by by rewrite (is_top_levels _ _ _ Htop Hs), (is_top_levels _ _ _ Htoph Hsh).
  split; [done|]. intros Hnd.
  apply (levels_determine_players C); [done|..|done].
  - intros x. by apply (is_top_elem_of _ _ _ _ Htop).
  - intros x. by apply (is_top_elem_of _ _ _ _ Htoph).
Qed.

(** * The further theorems at concrete inputs *)

Ltac wf_stream_by_computation := split; [simpl; lia|reflexivity].

Lemma nextPlayer_advances_witness :
  let s := VectorPlayerStream_new [mkPlayer "a" 5; mkPlayer "b" 3] in
  wf_stream s ∧ (0 < remaining s)%Z ∧
  ∃ p s',
    nextPlayer s = inr (p, s') ∧
    players_ s !! index_ s = Some p ∧
    players_ s' = players_ s ∧ index_ s' = S (index_ s) ∧
    wf_stream s' ∧ remaining s' = (remaining s - 1)%Z.
Proof.
  intros s.
  assert (wf_stream s) as Hwf by wf_stream_by_computation.
  assert (0 < remaining s)%Z as Hrem by reflexivity.
  split; [exact Hwf|]. split; [exact Hrem|].
  exact (nextPlayer_advances s Hwf Hrem).
Defined.

Lemma stream_reads_vector_witness :
  let players := [mkPlayer "a" 5; mkPlayer "b" 3; mkPlayer "c" 8] in
  (Z.of_nat (length players) < size_t_modulus)%Z ∧
  (2 ≤ length players →
     ∃ s', nextPlayers 2 (VectorPlayerStream_new players) = inr (take 2 players, s') ∧
           remaining s' = Z.of_nat (length players - 2)) ∧
  (length players < 2 →
     nextPlayers 2 (VectorPlayerStream_new players) =
       inl (runtime_error "No more players to fetch")).
Proof.
  intros players.
  assert (Z.of_nat (length players) < size_t_modulus)%Z as Hsz by reflexivity.
  split; [exact Hsz|].
  exact (stream_reads_vector players 2 Hsz).
Defined.

Lemma rankIncoming_cutoff_values_witness :
  let s := VectorPlayerStream_new tie_stream in
  1 ≤ 3 ∧ wf_stream s ∧ 3 ≤ length (pending s) ∧ length (pending s) + 3 < 11 ∧
  ∃ res s',
    @rankIncoming reference_algorithms 11 s 3 = inr (res, s') ∧
    ∀ k v, cutoffs_ res !! k = Some v →
      sorted_levels (take k (pending s)) !! (k - 3) = Some v.
Proof.
  intros s.
  assert (1 ≤ 3) as HR by lia.
  assert (wf_stream s) as Hwf by wf_stream_by_computation.
  assert (3 ≤ length (pending s)) as Hn by (simpl; lia).
  assert (length (pending s) + 3 < 11) as Hfuel by (simpl; lia).
  split; [exact HR|]. split; [exact Hwf|]. split; [exact Hn|]. split; [exact Hfuel|].
  exact (@rankIncoming_cutoff_values reference_algorithms 11 s 3 HR Hwf Hn Hfuel).
Defined.

Lemma rankIncoming_cutoffs_monotone_witness :
  let s := VectorPlayerStream_new tie_stream in
  1 ≤ 3 ∧ wf_stream s ∧ 3 ≤ length (pending s) ∧ length (pending s) + 3 < 11 ∧
  ∃ res s',
    @rankIncoming reference_algorithms 11 s 3 = inr (res, s') ∧
    ∀ k1 k2 v1 v2, k1 ≤ k2 →
      cutoffs_ res !! k1 = Some v1 → cutoffs_ res !! k2 = Some v2 → (v1 ≤ v2)%N.
Proof.
  intros s.
  assert (1 ≤ 3) as HR by lia.
  assert (wf_stream s) as Hwf by wf_stream_by_computation.
  assert (3 ≤ length (pending s)) as Hn by (simpl; lia).
  assert (length (pending s) + 3 < 11) as Hfuel by (simpl; lia).
  split; [exact HR|]. split; [exact Hwf|]. split; [exact Hn|]. split; [exact Hfuel|].
  exact (@rankIncoming_cutoffs_monotone reference_algorithms 11 s 3 HR Hwf Hn Hfuel).
Defined.

Lemma rankIncoming_final_cutoff_witness :
  let s := VectorPlayerStream_new tie_stream in
  1 ≤ 3 ∧ wf_stream s ∧ 3 ≤ length (pending s) ∧ length (pending s) + 3 < 11 ∧
  ∃ res s' first rest,
    @rankIncoming reference_algorithms 11 s 3 = inr (res, s') ∧
    head (top_ res) = Some first ∧
    cutoffs_ res !! length (pending s) = Some (level_ first) ∧
    pending s ≡ₚ top_ res ++ rest ∧
    (∀ b, b ∈ top_ res → (level_ first ≤ level_ b)%N) ∧
    (∀ a, a ∈ rest → (level_ a ≤ level_ first)%N).
Proof.
  intros s.
  assert (1 ≤ 3) as HR by lia.
  assert (wf_stream s) as Hwf by wf_stream_by_computation.
  assert (3 ≤ length (pending s)) as Hn by (simpl; lia).
  assert (length (pending s) + 3 < 11) as Hfuel by (simpl; lia).
  split; [exact HR|]. split; [exact Hwf|]. split; [exact Hn|]. split; [exact Hfuel|].
  exact (@rankIncoming_final_cutoff reference_algorithms 11 s 3 HR Hwf Hn Hfuel).
Defined.

Lemma rankIncoming_cutoffs_count_witness :
  let s := VectorPlayerStream_new tie_stream in
  1 ≤ 3 ∧ wf_stream s ∧ pending s ≠ [] ∧ length (pending s) + 3 < 11 ∧
  ∃ res s',
    @rankIncoming reference_algorithms 11 s 3 = inr (res, s') ∧
    size (cutoffs_ res) =
      length (pending s) / 3 + (if length (pending s) `mod` 3 =? 0 then 0 else 1).
Proof.
  intros s.
  assert (1 ≤ 3) as HR by lia.
  assert (wf_stream s) as Hwf by wf_stream_by_computation.
  assert (pending s ≠ []) as Hne by discriminate.
  assert (length (pending s) + 3 < 11) as Hfuel by (simpl; lia).
  split; [exact HR|]. split; [exact Hwf|]. split; [exact Hne|]. split; [exact Hfuel|].
  exact (@rankIncoming_cutoffs_count reference_algorithms 11 s 3 HR Hwf Hne Hfuel).
Defined.

Lemma rankIncoming_drains_stream_witness :
  let s := VectorPlayerStream_new tie_stream in
  1 ≤ 3 ∧ wf_stream s ∧ pending s ≠ [] ∧ length (pending s) + 3 < 11 ∧
  ∃ res s',
    @rankIncoming reference_algorithms 11 s 3 = inr (res, s') ∧
    players_ s' = players_ s ∧ index_ s' = length (players_ s) ∧
    remaining s' = 0%Z ∧
    nextPlayer s' = inl (runtime_error "No more players to fetch").
Proof.
  intros s.
  assert (1 ≤ 3) as HR by lia.
  assert (wf_stream s) as Hwf by wf_stream_by_computation.
  assert (pending s ≠ []) as Hne by discriminate.
  assert (length (pending s) + 3 < 11) as Hfuel by (simpl; lia).
  split; [exact HR|]. split; [exact Hwf|]. split; [exact Hne|]. split; [exact Hfuel|].
  exact (@rankIncoming_drains_stream reference_algorithms 11 s 3 HR Hwf Hne Hfuel).
Defined.

Lemma rankIncoming_zero_interval_witness :
  let s := VectorPlayerStream_new tie_stream in
  wf_stream s ∧ 1 ≤ 4 ∧
  @rankIncoming reference_algorithms 4 s 0 =
    inl (undefined_behaviour "front() of an empty vector").
Proof.
  intros s.
  assert (wf_stream s) as Hwf by wf_stream_by_computation.
  assert (1 ≤ 4) as Hfuel by lia.
  split; [exact Hwf|]. split; [exact Hfuel|].
  exact (@rankIncoming_zero_interval reference_algorithms 4 s Hwf Hfuel).
Defined.

Lemma rankIncoming_returns_all_when_few_witness :
  let s := VectorPlayerStream_new [mkPlayer "q" 4; mkPlayer "r" 2; mkPlayer "s" 6] in
  wf_stream s ∧ pending s ≠ [] ∧ length (pending s) ≤ 5 ∧
  length (pending s) + 5 < 9 ∧
  ∃ res s',
    @rankIncoming reference_algorithms 9 s 5 = inr (res, s') ∧
    top_ res ≡ₚ pending s ∧ is_sorted (top_ res).
Proof.
  intros s.
  assert (wf_stream s) as Hwf by wf_stream_by_computation.
  assert (pending s ≠ []) as Hne by discriminate.
  assert (length (pending s) ≤ 5) as Hn by (simpl; lia).
  assert (length (pending s) + 5 < 9) as Hfuel by (simpl; lia).
  split; [exact Hwf|]. split; [exact Hne|]. split; [exact Hn|]. split; [exact Hfuel|].
  exact (@rankIncoming_returns_all_when_few reference_algorithms 9 s 5
           Hwf Hne Hn Hfuel).
Defined.

Lemma rankIncoming_body_buffer_bounded_witness :
  let s := {| players_ := tie_stream; index_ := 5 |} in
  let st := {| ls_stream := s;
               ls_topPlayers := [mkPlayer "p1" 1; mkPlayer "x" 5; mkPlayer "y" 5];
               ls_cutoffs := ∅; ls_playerCount := 5 |} in
  let p := mkPlayer "t" 9 in
  let todo := [mkPlayer "u" 9] in
  1 ≤ 3 ∧ 3 ≤ 4 ∧ wf_stream (ls_stream st) ∧ pending (ls_stream st) = p :: todo ∧
  length (ls_topPlayers st) ≤ 3 ∧
  ∃ st',
    @rankIncoming_body reference_algorithms 4 3 st = inr st' ∧
    pending (ls_stream st') = todo ∧
    length (ls_topPlayers st) ≤ length (ls_topPlayers st') ≤ 3 ∧
    ls_playerCount st' = S (ls_playerCount st).
Proof.
  intros s st p todo.
  assert (1 ≤ 3) as HR by lia.
  assert (3 ≤ 4) as Hfuel by lia.
  assert (wf_stream (ls_stream st)) as Hwf by wf_stream_by_computation.
  assert (pending (ls_stream st) = p :: todo) as Hp by reflexivity.
  assert (length (ls_topPlayers st) ≤ 3) as Hlen by (simpl; lia).
  split; [exact HR|]. split; [exact Hfuel|]. split; [exact Hwf|].
  split; [exact Hp|]. split; [exact Hlen|].
  exact (@rankIncoming_body_buffer_bounded reference_algorithms 4 3 st p todo
           HR Hfuel Hwf Hp Hlen).
Defined.

Lemma replaceMin_front_is_minimum_witness :
  is_min_heap [mkPlayer "a" 1; mkPlayer "b" 3; mkPlayer "c" 2] ∧
  ∃ r rest,
    (∀ fuel, 3 ≤ fuel →
       replaceMin fuel [mkPlayer "a" 1; mkPlayer "b" 3; mkPlayer "c" 2]
                  (mkPlayer "d" 7) = Some (r :: rest)) ∧
    r ∈ [mkPlayer "d" 7; mkPlayer "b" 3; mkPlayer "c" 2] ∧
    ∀ b, b ∈ [mkPlayer "d" 7; mkPlayer "b" 3; mkPlayer "c" 2] →
         (level_ r ≤ level_ b)%N.
Proof.
  assert (is_min_heap [mkPlayer "a" 1; mkPlayer "b" 3; mkPlayer "c" 2]) as Hheap
    by (apply is_heap_b_correct; reflexivity).
  split; [exact Hheap|].
  exact (replaceMin_front_is_minimum (mkPlayer "a" 1)
           [mkPlayer "b" 3; mkPlayer "c" 2] (mkPlayer "d" 7) Hheap).
Defined.

Lemma replaceMin_stops_at_root_witness :
  let range := [mkPlayer "b" 3; mkPlayer "c" 2; mkPlayer "e" 4] in
  1 ≤ 1 ∧
  (∀ j y, j < 2 → range !! j = Some y → (level_ (mkPlayer "d" 2) ≤ level_ y)%N) ∧
  replaceMin 1 (mkPlayer "a" 1 :: range) (mkPlayer "d" 2) =
    Some (mkPlayer "d" 2 :: range).
Proof.
  intros range.
  assert (1 ≤ 1) as Hfuel by lia.
  assert (∀ j y, j < 2 → range !! j = Some y →
            (level_ (mkPlayer "d" 2) ≤ level_ y)%N) as Hchildren.
  { intros [|[|j]] y Hj Hy; simplify_eq/=; lia. }
  split; [exact Hfuel|]. split; [exact Hchildren|].
  exact (replaceMin_stops_at_root (mkPlayer "a" 1) range (mkPlayer "d" 2) 1
           Hfuel Hchildren).
Defined.

Lemma offline_selectors_equal_without_ties_witness :
  let C := [mkPlayer "a" 1; mkPlayer "b" 12; mkPlayer "c" 3; mkPlayer "d" 4;
            mkPlayer "e" 5; mkPlayer "f" 6; mkPlayer "g" 7; mkPlayer "h" 8;
            mkPlayer "i" 9; mkPlayer "j" 10; mkPlayer "k" 11] in
  NoDup (levels C) ∧
  ∃ rh ph,
    @heapRank reference_algorithms C = inr (rh, ph) ∧
    top_ rh = top_ (@quickSelectRank reference_algorithms C).1.
Proof.
  intros C.
  assert (NoDup (levels C)) as Hnd
    by (apply (bool_decide_unpack (NoDup (levels C))); vm_compute; exact I).
  split; [exact Hnd|].
  exact (offline_selectors_equal_without_ties
           reference_algorithms reference_algorithms C Hnd).
Defined.

Lemma rankIncoming_agrees_with_heapRank_witness :
  let C := [mkPlayer "a" 1; mkPlayer "b" 12; mkPlayer "c" 3; mkPlayer "d" 4;
            mkPlayer "e" 5; mkPlayer "f" 6; mkPlayer "g" 7; mkPlayer "h" 8;
            mkPlayer "i" 9; mkPlayer "j" 10; mkPlayer "k" 11] in
  (Z.of_nat (length C) < size_t_modulus)%Z ∧ 10 ≤ length C ∧
  length C + length C / 10 < 13 ∧
  ∃ res s' rh ph,
    @rankIncoming reference_algorithms 13 (VectorPlayerStream_new C) (length C / 10)
      = inr (res, s') ∧
    @heapRank reference_algorithms C = inr (rh, ph) ∧
    levels (top_ res) = levels (top_ rh) ∧
    (NoDup (levels C) → top_ res = top_ rh).
Proof.
  intros C.
  assert (Z.of_nat (length C) < size_t_modulus)%Z as Hsz by reflexivity.
  assert (10 ≤ length C) as Hlen by (simpl; lia).
  assert (length C + length C / 10 < 13) as Hfuel by (simpl; lia).
  split; [exact Hsz|]. split; [exact Hlen|]. split; [exact Hfuel|].
  exact (@rankIncoming_agrees_with_heapRank reference_algorithms 13 C
           Hsz Hlen Hfuel).
Defined.

(** * Admission to the leader buffer *)

Lemma admitted_after_app R seen l1 l2 :
  admitted_after R seen (l1 ++ l2) =
    admitted_after R seen l1 ++ admitted_after R (seen ++ l1) l2.
Proof.
  revert seen. induction l1 as [|a l1 IH]; intros seen; simpl.
  - by rewrite app_nil_r.
  - rewrite IH, <-!app_assoc. done.
Qed.

Lemma admitted_snoc R seen p :
  admitted R (seen ++ [p]) =
    admitted R seen ++ (if admitted_on_arrival R seen p then [p] else []).
Proof. unfold admitted. rewrite admitted_after_app. simpl. by rewrite app_nil_r. Qed.

Section Admission.
Context `{StdAlgorithms}.
Variable R : nat.
Hypothesis R_pos : 1 ≤ R.

(** The front of a full leader buffer carries the current minimum. *)
Lemma current_minimum_front seen r heap :
  R ≤ length seen →
  is_top (R `min` length seen) seen (r :: heap) → is_min_heap (r :: heap) →
  current_minimum R seen = Some (level_ r).
Proof.
  intros Hge Htop Hheap. unfold current_minimum.
  destruct (Nat.leb_spec R (length seen)); [|lia].
  apply is_cutoff_sorted_levels; [done|]. by eapply front_is_cutoff.
Qed.

(** The update of the leader buffer takes in the arrival only if it is
    admitted: the buffer stays within the players admitted on arrival. *)
Lemma update_top_admitted fuel seen tp p tp' :
  is_top (R `min` length seen) seen tp →
  (length seen < R → tp = seen) →
  (R ≤ length seen → is_min_heap tp) →
  tp ⊆+ admitted R seen →
  update_top fuel R tp p = inr tp' →
  tp' ⊆+ admitted R (seen ++ [p]).
Proof.
  intros Htop Hpre Hheap Hsub. pose proof Htop as [Hlen _].
  rewrite admitted_snoc. unfold update_top.
  destruct (Nat.ltb_spec (length tp) R) as [Hlt|Hge].
  - assert (admitted_on_arrival R seen p = true) as ->.
    { unfold admitted_on_arrival, current_minimum.
      destruct (Nat.leb_spec R (length seen)); [lia|done]. }
    destruct (_ =? _); intros ?; simplify_eq/=.
    + rewrite make_heap_Permutation. by apply submseteq_app.
    + by apply submseteq_app.
  - assert (R ≤ length seen) as Hseen by lia.
    specialize (Hheap Hseen).
    destruct tp as [|f heap]; [simpl in *; lia|]. cbn [front bind ret].
    destruct (Player_gt p f) eqn:Hgt.
    + destruct (replaceMin fuel (f :: heap) p) as [heap'|] eqn:Hrep; [|done].
      intros ?; simplify_eq/=.
      destruct (replaceMin_spec fuel f heap p tp' Hheap Hrep) as [_ Hperm].
      unfold admitted_on_arrival.
      rewrite (current_minimum_front seen f heap Hseen Htop Hheap).
      apply Player_gt_true, N.ltb_lt in Hgt. rewrite Hgt.
      rewrite Hperm, Permutation_cons_append.
      apply submseteq_app; [|done].
      etrans; [|exact Hsub]. by apply submseteq_cons.
    + intros ?; simplify_eq/=. by apply submseteq_inserts_r.
Qed.

Lemma rankIncoming_body_top fuel st st' p todo :
  wf_stream (ls_stream st) → pending (ls_stream st) = p :: todo →
  rankIncoming_body fuel R st = inr st' →
  update_top fuel R (ls_topPlayers st) p = inr (ls_topPlayers st').
Proof.
  intros Hwf Hp.
  destruct (nextPlayer_pending _ _ _ Hwf Hp) as (s1 & Hnext & _).
  rewrite rankIncoming_body_unfold, Hnext. cbn [bind].
  destruct (update_top fuel R (ls_topPlayers st) p) as [e|tp]; [done|]. cbn [bind].
  destruct (record_cutoff R (S (ls_playerCount st)) tp (ls_cutoffs st)) as [e|cut];
    [done|]. cbn [bind].
  intros ?. by simplify_eq/=.
Qed.

Lemma rankIncoming_loop_admitted todo : ∀ fuel st seen,
  length todo + R < fuel →
  wf_stream (ls_stream st) → pending (ls_stream st) = todo →
  loop_inv R seen st → ls_topPlayers st ⊆+ admitted R seen →
  ∃ st', rankIncoming_loop fuel R st = inr st' ∧
    ls_topPlayers st' ⊆+ admitted R (seen ++ todo).
Proof.
  induction todo as [|p todo IH]; intros fuel st seen Hfuel Hwf Hpend Hinv Hsub.
  - destruct (rankIncoming_loop_spec R R_pos [] fuel st seen Hfuel Hwf Hpend Hinv)
      as (st' & Hloop & _).
    exists st'. split; [done|]. rewrite app_nil_r.
    destruct fuel as [|fuel]; [simpl in Hfuel; lia|]. simpl in Hloop.
    assert ((0 <? remaining (ls_stream st))%Z = false) as Hrem.
    { apply not_true_is_false. rewrite remaining_pos_pending by done.
      rewrite Hpend. by intros Hne. }
    rewrite Hrem in Hloop. by simplify_eq/=.
  - destruct fuel as [|fuel]; [simpl in Hfuel; lia|]. simpl in *.
    assert ((0 <? remaining (ls_stream st))%Z = true) as ->.
    { rewrite remaining_pos_pending by done. by rewrite Hpend. }
    destruct (rankIncoming_body_spec R R_pos fuel st seen p todo ltac:(lia)
                Hwf Hpend Hinv) as (st1 & Hbody & Hwf1 & Hpend1 & Hinv1).
    pose proof (rankIncoming_body_top fuel st st1 p todo Hwf Hpend Hbody) as Hup.
    destruct Hinv as [_ Htop Hpre Hheap _ _].
    pose proof (update_top_admitted fuel seen _ p _ Htop Hpre Hheap Hsub Hup) as Hsub1.
    rewrite Hbody. cbn [bind].
    destruct (IH fuel st1 (seen ++ [p]) ltac:(lia) Hwf1 Hpend1 Hinv1 Hsub1)
      as (st' & -> & Hsub').
    exists st'. rewrite <-app_assoc in Hsub'. done.
Qed.

Lemma rankIncoming_finish_top st res s' :
  rankIncoming_finish st = inr (res, s') → top_ res = sort (ls_topPlayers st).
Proof.
  unfold rankIncoming_finish. case_decide.
  - destruct (ls_topPlayers st); [done|]. cbn. intros ?; by simplify_eq.
  - cbn. intros ?; by simplify_eq.
Qed.

(** The top subset is drawn from the players admitted on arrival. *)
Lemma rankIncoming_top_admitted fuel s res s' :
  wf_stream s → length (pending s) + R < fuel →
  rankIncoming fuel s R = inr (res, s') →
  top_ res ⊆+ admitted R (pending s).
Proof.
  intros Hwf Hfuel Hrun.
  destruct (rankIncoming_loop_admitted (pending s) fuel
              {| ls_stream := s; ls_topPlayers := []; ls_cutoffs := ∅;
                 ls_playerCount := 0 |} [] Hfuel Hwf eq_refl
              (loop_inv_init R R_pos s)) as (st & Hloop & Hsub).
  { apply submseteq_nil_l. }
  rewrite rankIncoming_unfold, Hloop in Hrun. cbn [bind] in Hrun.
  apply rankIncoming_finish_top in Hrun as ->.
  by rewrite sort_Permutation.
Qed.

End Admission.

(** C3, as amended. On every stream that holds at least one player and for
    every reporting interval [R >= 1], [rankIncoming] reads the whole
    stream and returns a top subset that is sorted ascending by level, has
    [min R n] players ([n] the number of players read), consists of players
    read, none of the players left out having a higher level than one kept,
    and whose levels are exactly the [min R n] highest levels read.  An
    arrival that finds the leader buffer full and whose level does not
    exceed the current minimum (the [R]-th highest level read before it) is
    discarded, also when it ties that minimum: the top subset is drawn from
    the players admitted on arrival.  Among the players admitted, which of
    several tied at the lowest level kept remains is not determined by the
    order of arrival. *)
Theorem rankIncoming_top `{StdAlgorithms} (fuel : nat) (s : VectorPlayerStream) (R : nat) :
  1 ≤ R → wf_stream s → pending s ≠ [] → length (pending s) + R < fuel →
  ∃ res s',
    rankIncoming fuel s R = inr (res, s') ∧ pending s' = [] ∧
    is_sorted (top_ res) ∧
    length (top_ res) = R `min` length (pending s) ∧
    is_top (R `min` length (pending s)) (pending s) (top_ res) ∧
    levels (top_ res) =
      drop (length (pending s) - R `min` length (pending s))
           (sorted_levels (pending s)) ∧
    top_ res ⊆+ admitted R (pending s).
Proof.
  intros HR Hwf Hne Hfuel.
  destruct (rankIncoming_top_spec fuel s R HR Hwf Hne Hfuel)
    as (res & s' & Hrun & Hpend & Hsorted & Htop).
  exists res, s'. split; [done|]. split; [done|]. split; [done|].
  split; [apply Htop|]. split; [done|].
  split; [by apply is_top_levels|].
  by apply (rankIncoming_top_admitted R HR fuel s res s').
Qed.

(** Three players tied at level 5 and a reporting interval of 2: the third
    arrival ties the current minimum and is not admitted. *)
Lemma admitted_three_tied :
  admitted 2 [mkPlayer "a" 5; mkPlayer "b" 5; mkPlayer "c" 5] =
    [mkPlayer "a" 5; mkPlayer "b" 5].
Proof. reflexivity. Qed.

(** [rankIncoming_top] on three players tied at level 5 with a reporting
    interval of 2. *)
Lemma rankIncoming_top_witness :
  let s := VectorPlayerStream_new
             [mkPlayer "a" 5; mkPlayer "b" 5; mkPlayer "c" 5] in
  1 ≤ 2 ∧ wf_stream s ∧ pending s ≠ [] ∧ length (pending s) + 2 < 6 ∧
  ∃ res s',
    @rankIncoming reference_algorithms 6 s 2 = inr (res, s') ∧ pending s' = [] ∧
    is_sorted (top_ res) ∧
    length (top_ res) = 2 `min` length (pending s) ∧
    is_top (2 `min` length (pending s)) (pending s) (top_ res) ∧
    levels (top_ res) =
      drop (length (pending s) - 2 `min` length (pending s))
           (sorted_levels (pending s)) ∧
    top_ res ⊆+ admitted 2 (pending s).
Proof.
  intros s.
  assert (1 ≤ 2) as HR by lia.
  assert (wf_stream s) as Hwf by wf_stream_by_computation.
  assert (pending s ≠ []) as Hne by discriminate.
  assert (length (pending s) + 2 < 6) as Hfuel by (simpl; lia).
  split; [exact HR|]. split; [exact Hwf|]. split; [exact Hne|].
  split; [exact Hfuel|].
  exact (@rankIncoming_top reference_algorithms 6 s 2 HR Hwf Hne Hfuel).
Defined.

(** On three players tied at level 5 and with a reporting interval of 2,
    every conforming library gives the first two players: the third, which
    ties the minimum of the full buffer, is discarded. *)
Lemma rankIncoming_three_tied `{StdAlgorithms} :
  let players := [mkPlayer "a" 5; mkPlayer "b" 5; mkPlayer "c" 5] in
  ∃ res s',
    rankIncoming 6 (VectorPlayerStream_new players) 2 = inr (res, s') ∧
    top_ res ≡ₚ [mkPlayer "a" 5; mkPlayer "b" 5].
Proof.
  intros players.
  assert (wf_stream (VectorPlayerStream_new players)) as Hwf
    by wf_stream_by_computation.
  destruct (rankIncoming_top_spec 6 (VectorPlayerStream_new players) 2
              ltac:(lia) Hwf ltac:(done) ltac:(simpl; lia))
    as (res & s' & Hrun & _ & _ & [Hlen _]).
  exists res, s'. split; [done|].
  pose proof (rankIncoming_top_admitted 2 ltac:(lia) 6 _ res s' Hwf
                ltac:(simpl; lia) Hrun) as Hsub.
  change (admitted 2 (pending (VectorPlayerStream_new players)))
    with [mkPlayer "a" 5; mkPlayer "b" 5] in Hsub.
  apply submseteq_length_Permutation; [done|]. rewrite Hlen. simpl. lia.
Qed.
